(** * gorm-cruder: the generic CRUD helper and its query translator

    A shallow embedding of package [crud]: the sort-direction type, the
    statement each operation builds through the ORM's chain methods, the
    list-returning and singleton-resolving reads, and the writes with their
    omit lists.  The ORM itself is an external collaborator: the generic
    code is stated over an arbitrary handle ([DB]), and a small in-memory
    reference collaborator ([mem_db]) gives the emitted predicates their SQL
    meaning where a property speaks about which records match. *)

From Stdlib Require Import ZArith String Ascii List Bool Lia Permutation.
From stdpp Require Import base option gmap strings.
Import ListNotations.

Local Open Scope string_scope.
Local Open Scope list_scope.

(** * Go values and errors *)

(** A value of Go's [any] as the storage layer sees it: integers, strings and
    instants (a [time.Time] counted from its zero instant). *)
Inductive value : Type :=
| VInt (n : Z)
| VStr (s : string)
| VTime (t : Z).

Definition value_eqb (a b : value) : bool :=
  match a, b with
  | VInt x, VInt y => Z.eqb x y
  | VStr x, VStr y => String.eqb x y
  | VTime x, VTime y => Z.eqb x y
  | _, _ => false
  end.

(** The zero value of each kind: [0], the empty string, the zero instant. *)
Definition is_zero (a : value) : bool :=
  match a with
  | VInt n => Z.eqb n 0
  | VStr s => String.eqb s EmptyString
  | VTime t => Z.eqb t 0
  end.

(** Go [error] values.  [errors.New msg] is identified by its message;
    [fmt.Errorf (prefix ++ "%w") e] wraps [e]. *)
Inductive error : Type :=
| errors_New (msg : string)
| Errorf_w (prefix : string) (inner : error).

Fixpoint error_eqb (a b : error) : bool :=
  match a, b with
  | errors_New x, errors_New y => String.eqb x y
  | Errorf_w p x, Errorf_w q y => String.eqb p q && error_eqb x y
  | _, _ => false
  end.

(** [errors.Is err target]: [err] or anything it wraps equals [target]. *)
Fixpoint errors_Is (err target : error) : bool :=
  error_eqb err target ||
  match err with
  | errors_New _ => false
  | Errorf_w _ inner => errors_Is inner target
  end.

(** [gorm.ErrRecordNotFound], declared by the ORM. *)
Definition ErrRecordNotFound : error := errors_New "record not found".

(** [MultipleResultsError] is returned when QueryOne finds more than 1 row. *)
Definition MultipleResultsError : error := errors_New "multiple results found".

(** A Go pointer [*T]: [None] is [nil]. *)
Definition ptr (T : Type) : Type := option T.

(** A call either returns or panics. *)
Inductive outcome (A : Type) : Type :=
| Ret (a : A)
| Panic (msg : string).
Arguments Ret {A} a.
Arguments Panic {A} msg.

Definition obind {A B} (m : outcome A) (k : A -> outcome B) : outcome B :=
  match m with
  | Ret a => k a
  | Panic msg => Panic msg
  end.

Definition omap {A B} (f : A -> B) (m : outcome A) : outcome B :=
  obind m (fun a => Ret (f a)).

(** * Sort direction *)

(** [OrderBy uint]: an unsigned machine word. *)
Definition OrderBy : Type := N.

(** [const ( ASC OrderBy = 1 << iota ; DESC )]. *)
Definition ASC : OrderBy := N.shiftl 1 0.
Definition DESC : OrderBy := N.shiftl 1 1.

Definition OrderBy_String (ob : OrderBy) : outcome string :=
  if N.eqb ob ASC then Ret "ASC"
  else if N.eqb ob DESC then Ret "DESC"
  else Panic "unknown OrderBy".


(** * Statements handed to the ORM *)

(** What the ORM can see of a record by reflection: its attributes, in
    declaration order, each with its current value. *)
Class Schema (T : Type) := columns : T -> list (string * value).

(** A condition as the code passes it: an SQL fragment with its bound
    arguments ([Where (query, args...)]), an example record ([Where (&v)]),
    or a map of required values ([Find (&res, q)]). *)
Inductive Cond (T : Type) : Type :=
| CondExpr (query : string) (args : list value)
| CondStruct (v : T)
| CondMap (q : gmap string value).
Arguments CondExpr {T} query args.
Arguments CondStruct {T} v.
Arguments CondMap {T} q.

(** The state a chain of ORM calls accumulates before it is executed. *)
Record Stmt (T : Type) : Type := mkStmt {
  stmt_omit : list string;
  stmt_preload : list string;
  stmt_order : list string;
  stmt_where : list (Cond T)
}.
Arguments mkStmt {T} _ _ _ _.
Arguments stmt_omit {T} _.
Arguments stmt_preload {T} _.
Arguments stmt_order {T} _.
Arguments stmt_where {T} _.

(** The ORM handle: what executing a finished chain returns.  [Find] fills a
    slice of record pointers; [Create], [FirstOrCreate] write through the
    pointer they are given; every call reports its [Error]. *)
Record DB (T : Type) : Type := mkDB {
  db_Find : Stmt T -> list (ptr T) * option error;
  db_Create : Stmt T -> T -> T * option error;
  db_FirstOrCreate : Stmt T -> T -> T * option error;
  db_Updates : Stmt T -> T -> option error
}.
Arguments mkDB {T} _ _ _ _.
Arguments db_Find {T} _ _.
Arguments db_Create {T} _ _ _.
Arguments db_FirstOrCreate {T} _ _ _.
Arguments db_Updates {T} _ _ _.

(** [type Between struct { From, To any }]. *)
Record Between : Type := mkBetween { From : value; To : value }.

(** [type Query struct]: the structured query description. *)
Record Query_t : Type := mkQuery {
  q_Omit : list string;
  q_Preload : list string;
  q_OrderBy : gmap string OrderBy;
  q_Equal : gmap string string;
  q_Like : gmap string string;
  q_Between : gmap string Between
}.

(** The order in which one run of [for k, v := range m] visits a map.  Go
    leaves it unspecified; every entry is visited exactly once. *)
Definition RangeOrder : Type := forall V : Type, gmap string V -> list (string * V).

Definition range_visits_each_once (visit : RangeOrder) : Prop :=
  forall (V : Type) (m : gmap string V), Permutation (visit V m) (map_to_list m).

(** One admissible order: the map's own enumeration. *)
Definition range_in_map_order : RangeOrder := fun V m => map_to_list m.


(** [type GenericCRUD[T GORMModel] struct]; [logger] is always [nil].  The
    [PrimaryKey] capability of [GORMModel] is used by [GetByID] and [Delete]
    only. *)
Record GenericCRUD (T : Type) : Type := mkCRUD {
  db : DB T;
  omit : list string
}.
Arguments mkCRUD {T} _ _.
Arguments db {T} _.
Arguments omit {T} _.

Section Crud.
Context {T : Type}.

(** ** The chain methods the code calls *)

(** [g.db.Debug().WithContext(ctx)]: a fresh chain on the handle given to
    [New]. *)
Definition session : Stmt T := mkStmt [] [] [] [].

(** [Omit] records the columns as the caller passes them. *)
Definition Omit (cols : list string) (s : Stmt T) : Stmt T :=
  mkStmt cols (stmt_preload s) (stmt_order s) (stmt_where s).

Definition Preload (name : string) (s : Stmt T) : Stmt T :=
  mkStmt (stmt_omit s) (stmt_preload s ++ [name]) (stmt_order s) (stmt_where s).

Definition Order (text : string) (s : Stmt T) : Stmt T :=
  mkStmt (stmt_omit s) (stmt_preload s) (stmt_order s ++ [text]) (stmt_where s).

Definition Where (c : Cond T) (s : Stmt T) : Stmt T :=
  mkStmt (stmt_omit s) (stmt_preload s) (stmt_order s) (stmt_where s ++ [c]).

(** ** Constructor (src/unnamed/part_000) *)

Definition New (d : DB T) (omit : list string) : GenericCRUD T :=
  mkCRUD d omit.

(** ** Writes *)

Definition Create_stmt (g : GenericCRUD T) (omit' : list string) : Stmt T :=
  Omit (omit g ++ omit') session.

Definition Create (g : GenericCRUD T) (v : T) (omit' : list string)
  : ptr T * option error :=
  let (v', err) := db_Create (db g) (Create_stmt g omit') v in
  (Some v', err).

Definition GetOrCreate_stmt (g : GenericCRUD T) (v : T) (omit' : list string)
  : Stmt T :=
  Where (CondStruct v) (Omit (omit g ++ omit') session).

Definition GetOrCreate (g : GenericCRUD T) (v : T) (omit' : list string)
  : ptr T * option error :=
  let (v', err) := db_FirstOrCreate (db g) (GetOrCreate_stmt g v omit') v in
  (Some v', err).

Definition Update_stmt (g : GenericCRUD T) (omit' : list string) : Stmt T :=
  Omit (omit g ++ omit') session.

Definition Update (g : GenericCRUD T) (v : T) (omit' : list string)
  : option error :=
  db_Updates (db g) (Update_stmt g omit') v.

(** ** Reads *)

Definition Query_stmt (g : GenericCRUD T) (v : T) (omit' : list string)
  : Stmt T :=
  Where (CondStruct v) (Omit (omit g ++ omit') session).

(** Query by non-zero fields of v; returns slice of Model's. *)
Definition Query (g : GenericCRUD T) (v : T) (omit' : list string)
  : list (ptr T) * option error :=
  db_Find (db g) (Query_stmt g v omit').

(** [res[0]] on a slice known to be non-empty. *)
Definition index0 (res : list (ptr T)) : ptr T :=
  match res with
  | p :: _ => p
  | [] => None
  end.

(** QueryOne by non-zero fields of v; returns exactly one Model or error. *)
Definition QueryOne (g : GenericCRUD T) (v : T) (omit' : list string)
  : ptr T * option error :=
  let (res, err) := db_Find (db g) (Query_stmt g v omit') in
  match err with
  | Some e =>
      if negb (errors_Is e ErrRecordNotFound)
      then (None, Some (Errorf_w "db error: " e))
      else (None, Some e)
  | None =>
      if Nat.eqb (length res) 0 then (None, Some ErrRecordNotFound)
      else if Nat.ltb 1 (length res) then (None, Some MultipleResultsError)
      else (index0 res, None)
  end.

Definition QueryMap_stmt (q : gmap string value) (omit' : list string)
  : Stmt T :=
  Where (CondMap q) (Omit omit' session).

Definition QueryMap (g : GenericCRUD T) (q : gmap string value)
    (omit' : list string) : list (ptr T) * option error :=
  db_Find (db g) (QueryMap_stmt q omit').

Definition QueryMapOne (g : GenericCRUD T) (q : gmap string value)
    (omit' : list string) : ptr T * option error :=
  let (res, err) := QueryMap g q omit' in
  match err with
  | Some e =>
      if negb (errors_Is e ErrRecordNotFound)
      then (None, Some (Errorf_w "db error: " e))
      else (None, Some e)
  | None =>
      if Nat.eqb (length res) 0 then (None, Some ErrRecordNotFound)
      else if Nat.ltb 1 (length res) then (None, Some MultipleResultsError)
      else (index0 res, None)
  end.

(** The four loops of [SmartQuery], each over the entries in the order the
    run visits them. *)
Definition preload_loop (names : list string) (stmt : Stmt T) : Stmt T :=
  fold_left (fun s name => Preload name s) names stmt.

Fixpoint order_loop (kvs : list (string * OrderBy)) (stmt : Stmt T)
  : outcome (Stmt T) :=
  match kvs with
  | [] => Ret stmt
  | (k, v) :: rest =>
      obind (OrderBy_String v)
            (fun dir => order_loop rest (Order (k +:+ " " +:+ dir) stmt))
  end.

Definition like_cond (k v : string) : Cond T :=
  CondExpr (k +:+ " LIKE ?") [VStr ("%" +:+ v +:+ "%")].

Definition between_cond (k : string) (v : Between) : Cond T :=
  CondExpr (k +:+ " BETWEEN ? AND ?") [From v; To v].

Definition equal_cond (k v : string) : Cond T :=
  CondExpr (k +:+ " = ?") [VStr v].

Definition like_loop (kvs : list (string * string)) (stmt : Stmt T) : Stmt T :=
  fold_left (fun s kv => Where (like_cond (fst kv) (snd kv)) s) kvs stmt.

Definition between_loop (kvs : list (string * Between)) (stmt : Stmt T)
  : Stmt T :=
  fold_left (fun s kv => Where (between_cond (fst kv) (snd kv)) s) kvs stmt.

Definition equal_loop (kvs : list (string * string)) (stmt : Stmt T) : Stmt T :=
  fold_left (fun s kv => Where (equal_cond (fst kv) (snd kv)) s) kvs stmt.

(** The chain [SmartQuery] has built when it reaches [stmt.Find]. *)
Definition SmartQuery_stmt (visit : RangeOrder) (q : Query_t)
  : outcome (Stmt T) :=
  let stmt := Omit (q_Omit q) session in
  let stmt := preload_loop (q_Preload q) stmt in
  obind (order_loop (visit _ (q_OrderBy q)) stmt) (fun stmt =>
  let stmt := like_loop (visit _ (q_Like q)) stmt in
  let stmt := between_loop (visit _ (q_Between q)) stmt in
  let stmt := equal_loop (visit _ (q_Equal q)) stmt in
  Ret stmt).

Definition SmartQuery (visit : RangeOrder) (g : GenericCRUD T) (q : Query_t)
  : outcome (list (ptr T) * option error) :=
  obind (SmartQuery_stmt visit q) (fun stmt => Ret (db_Find (db g) stmt)).

Definition SmartQueryOne (visit : RangeOrder) (g : GenericCRUD T) (q : Query_t)
  : outcome (ptr T * option error) :=
  obind (SmartQuery visit g q) (fun out =>
  let (res, err) := out in
  match err with
  | Some e =>
      if negb (errors_Is e ErrRecordNotFound)
      then Ret (None, Some (Errorf_w "db error: " e))
      else Ret (None, Some e)
  | None =>
      if Nat.eqb (length res) 0 then Ret (None, Some ErrRecordNotFound)
      else if Nat.ltb 1 (length res) then Ret (None, Some MultipleResultsError)
      else Ret (index0 res, None)
  end).

(** ** Singleton resolution, as the specification words it *)

(** Zero matches fail with NotFound, exactly one match is returned, more
    than one fails with MultipleResults; any other failure of the
    collaborator is wrapped with context, NotFound is passed on. *)
Definition resolve_singleton (out : list (ptr T) * option error)
  : ptr T * option error :=
  match snd out with
  | Some e =>
      (None, Some (if errors_Is e ErrRecordNotFound then e
                   else Errorf_w "db error: " e))
  | None =>
      match fst out with
      | [] => (None, Some ErrRecordNotFound)
      | [p] => (p, None)
      | _ :: _ :: _ => (None, Some MultipleResultsError)
      end
  end.

End Crud.

(** ** Constructor with default omits (src/crud/model.go) *)
Module ModelGo.

Definition OmitByDefault : list string := ["CreatedAt"; "UpdatedAt"].

Definition New {T : Type} (d : DB T) (omit : list string) : GenericCRUD T :=
  mkCRUD d (OmitByDefault ++ omit).

End ModelGo.


(** * Reference collaborator: an in-memory table

    A table of records read the way the ORM and the SQL engine behind it
    read the chains above (the PostgreSQL the repository's tests run
    against).  A find first checks the chain: a condition or an ordering on
    something that is not a column of the table, or with an argument the
    column's type cannot take, makes the find fail, whatever the table
    holds.  It then keeps the records that are not soft-deleted and pass
    every condition, sorts them by the ordering directives, and returns them
    without the omitted columns.  What depends on the engine's locale (how
    text is read as a number or an instant, how text is ordered) is a
    parameter, [Dialect]. *)

Inductive kind : Type := KInt | KStr | KTime.

Class Dialect : Type := {
  parse_int : string -> option Z;
  parse_time : string -> option Z;
  text_leb : string -> string -> bool;
  text_leb_refl : forall s, text_leb s s = true
}.

(** What the ORM derives from the record type: the table's columns and
    their types, the Go field behind each column, the relations that can be
    eager-loaded, the column of the soft-deletion marker if the type has one,
    and how a column of a scanned record is left at its zero value. *)
Class Table (T : Type) : Type := {
  table_columns : list (string * kind);
  table_fields : list (string * string);
  table_relations : list string;
  soft_delete_column : option string;
  clear_column : string -> T -> T
}.

Fixpoint lookup_col {V : Type} (k : string) (cols : list (string * V))
  : option V :=
  match cols with
  | [] => None
  | (k', x) :: rest => if String.eqb k k' then Some x else lookup_col k rest
  end.

(** ** Column names in SQL text *)

Definition is_digit (c : ascii) : bool :=
  let n := nat_of_ascii c in Nat.leb 48 n && Nat.leb n 57.

Definition is_upper (c : ascii) : bool :=
  let n := nat_of_ascii c in Nat.leb 65 n && Nat.leb n 90.

Definition is_lower (c : ascii) : bool :=
  let n := nat_of_ascii c in Nat.leb 97 n && Nat.leb n 122.

Definition is_ident_char (c : ascii) : bool :=
  is_upper c || is_lower c || is_digit c || Ascii.eqb c "_".

Definition to_lower (c : ascii) : ascii :=
  if is_upper c then ascii_of_nat (nat_of_ascii c + 32) else c.

Fixpoint string_forall (f : ascii -> bool) (s : string) : bool :=
  match s with
  | EmptyString => true
  | String c s' => f c && string_forall f s'
  end.

Fixpoint string_map (f : ascii -> ascii) (s : string) : string :=
  match s with
  | EmptyString => EmptyString
  | String c s' => String (f c) (string_map f s')
  end.

(** An unquoted identifier in SQL text names the column spelled in lower
    case; anything else is not read as a column name. *)
Definition plain_column (k : string) : option string :=
  match k with
  | EmptyString => None
  | String c _ =>
      if negb (is_digit c) && string_forall is_ident_char k
      then Some (string_map to_lower k)
      else None
  end.

(** ** Values as a column reads them *)

Fixpoint digits_value (s : string) (acc : Z) : option Z :=
  match s with
  | EmptyString => Some acc
  | String c s' =>
      if is_digit c
      then digits_value s' (10 * acc + Z.of_nat (nat_of_ascii c - 48))
      else None
  end.

Definition parse_decimal (s : string) : option Z :=
  match s with
  | EmptyString => None
  | String c rest =>
      if Ascii.eqb c "-" then
        match rest with
        | EmptyString => None
        | String _ _ => option_map Z.opp (digits_value rest 0)
        end
      else digits_value s 0
  end.

(** A dialect that reads decimal integers, takes no text for an instant and
    orders text by code. *)
Definition byte_dialect : Dialect :=
  {| parse_int := parse_decimal;
     parse_time := fun _ => None;
     text_leb := String.leb;
     text_leb_refl := fun s =>
       match String.leb_total s s with
       | or_introl e => e
       | or_intror e => e
       end |}.
#[export] Existing Instance byte_dialect | 100.

(** The argument [x] as a column of kind [kd] takes it: text is read as a
    number or an instant where the column holds one. *)
Definition coerce `{Dialect} (kd : kind) (x : value) : option value :=
  match kd, x with
  | KInt, VInt n => Some (VInt n)
  | KInt, VStr s => option_map VInt (parse_int s)
  | KStr, VStr s => Some (VStr s)
  | KTime, VTime t => Some (VTime t)
  | KTime, VStr s => option_map VTime (parse_time s)
  | _, _ => None
  end.

Definition sql_leb `{Dialect} (a b : value) : bool :=
  match a, b with
  | VInt x, VInt y => Z.leb x y
  | VStr x, VStr y => text_leb x y
  | VTime x, VTime y => Z.leb x y
  | _, _ => false
  end.

(** ** The [LIKE] matcher *)

(** SQL [s LIKE p]: [%] matches any run of characters, [_] any one
    character, a backslash makes the next pattern character literal. *)
Fixpoint like_match (p : string) : string -> bool :=
  match p with
  | EmptyString => fun s => match s with EmptyString => true | String _ _ => false end
  | String c p' =>
      if Ascii.eqb c "%" then
        fix star (s : string) : bool :=
          like_match p' s ||
          match s with
          | EmptyString => false
          | String _ s' => star s'
          end
      else if Ascii.eqb c "_" then
        fun s => match s with
                 | EmptyString => false
                 | String _ s' => like_match p' s'
                 end
      else if Ascii.eqb c "\" then
        match p' with
        | EmptyString => fun _ => false
        | String e p'' =>
            fun s => match s with
                     | EmptyString => false
                     | String d s' => Ascii.eqb e d && like_match p'' s'
                     end
        end
      else
        fun s => match s with
                 | EmptyString => false
                 | String d s' => Ascii.eqb c d && like_match p' s'
                 end
  end.

(** A character with a special meaning in a [LIKE] pattern. *)
Definition like_meta (c : ascii) : bool :=
  Ascii.eqb c "%" || Ascii.eqb c "_" || Ascii.eqb c "\".

Fixpoint like_plain (v : string) : bool :=
  match v with
  | EmptyString => true
  | String c v' => negb (like_meta c) && like_plain v'
  end.

(** [s] contains [v] as a contiguous substring. *)
Definition contains (s v : string) : Prop :=
  exists pre post : string, s = pre +:+ v +:+ post.

Fixpoint strip_prefix (p s : list ascii) : option (list ascii) :=
  match p, s with
  | [], _ => Some s
  | a :: p', b :: s' => if Ascii.eqb a b then strip_prefix p' s' else None
  | _ :: _, [] => None
  end.

(** [Some k] when [s] is [k] followed by [suf]. *)
Definition strip_suffix (suf s : string) : option string :=
  option_map (fun l => string_of_list_ascii (rev l))
             (strip_prefix (rev (list_ascii_of_string suf))
                           (rev (list_ascii_of_string s))).

(** ** Errors of the engine and the ORM *)

Definition err_syntax (text : string) : error :=
  errors_New ("syntax error at or near " +:+ text).

Definition err_no_column (c : string) : error :=
  errors_New ("column " +:+ c +:+ " does not exist").

Definition err_input (c : string) : error :=
  errors_New ("invalid input for column " +:+ c).

Definition err_operator (c : string) : error :=
  errors_New ("operator does not exist for column " +:+ c).

Definition err_relation (name : string) : error :=
  errors_New ("unsupported relations for schema: " +:+ name).

Definition read_only : error := errors_New "read-only table".

Section MemDB.
Context {T : Type} `{Schema T} `{Table T} `{Dialect}.

(** ** Conditions *)

(** The three shapes of SQL text the translator emits, each on a column. *)
Inductive clause : Type :=
| ClBetween (k : string) (lo hi : value)
| ClLike (k : string) (pat : value)
| ClEqual (k : string) (x : value).

Definition read_clause (query : string) (args : list value) : option clause :=
  match strip_suffix " BETWEEN ? AND ?" query, args with
  | Some k, [lo; hi] => Some (ClBetween k lo hi)
  | _, _ =>
      match strip_suffix " LIKE ?" query, args with
      | Some k, [pat] => Some (ClLike k pat)
      | _, _ =>
          match strip_suffix " = ?" query, args with
          | Some k, [x] => Some (ClEqual k x)
          | _, _ => None
          end
      end
  end.

(** The column an SQL fragment names, with its type, or the engine's error. *)
Definition bind_column (k : string) : error + (string * kind) :=
  match plain_column k with
  | None => inl (err_syntax k)
  | Some c =>
      match lookup_col c table_columns with
      | None => inl (err_no_column c)
      | Some kd => inr (c, kd)
      end
  end.

(** The column a map key or a struct field names: the name as it is. *)
Definition bind_exact (c : string) : error + (string * kind) :=
  match lookup_col c table_columns with
  | None => inl (err_no_column c)
  | Some kd => inr (c, kd)
  end.

Definition check_value (c : string) (kd : kind) (x : value) : option error :=
  match coerce kd x with
  | Some _ => None
  | None => Some (err_input c)
  end.

Definition check_clause (cl : clause) : option error :=
  match cl with
  | ClBetween k lo hi =>
      match bind_column k with
      | inl e => Some e
      | inr (c, kd) =>
          match check_value c kd lo with
          | Some e => Some e
          | None => check_value c kd hi
          end
      end
  | ClLike k pat =>
      match bind_column k with
      | inl e => Some e
      | inr (c, kd) =>
          match kd, pat with
          | KStr, VStr _ => None
          | _, _ => Some (err_operator c)
          end
      end
  | ClEqual k x =>
      match bind_column k with
      | inl e => Some e
      | inr (c, kd) => check_value c kd x
      end
  end.

Definition check_pair (kx : string * value) : option error :=
  match bind_exact (fst kx) with
  | inl e => Some e
  | inr (c, kd) => check_value c kd (snd kx)
  end.

Fixpoint first_error {A : Type} (f : A -> option error) (l : list A)
  : option error :=
  match l with
  | [] => None
  | a :: rest =>
      match f a with
      | Some e => Some e
      | None => first_error f rest
      end
  end.

(** Translate-by-example: one equality predicate per attribute of the
    example whose value is not the zero value of its type. *)
Definition struct_conds (v : T) : list (string * value) :=
  List.filter (fun kv => negb (is_zero (snd kv))) (columns v).

Definition check_cond (c : Cond T) : option error :=
  match c with
  | CondExpr query args =>
      match read_clause query args with
      | Some cl => check_clause cl
      | None => Some (err_syntax query)
      end
  | CondStruct v => first_error check_pair (struct_conds v)
  | CondMap q => first_error check_pair (map_to_list q)
  end.

(** Column [c] of the record equals [x], read as the column takes it. *)
Definition column_equals (cols : list (string * value)) (c : string)
    (x : value) : bool :=
  match lookup_col c table_columns, lookup_col c cols with
  | Some kd, Some y =>
      match coerce kd x with
      | Some x' => value_eqb y x'
      | None => false
      end
  | _, _ => false
  end.

(** Column [c] of the record lies between [lo] and [hi], both included. *)
Definition column_between (cols : list (string * value)) (c : string)
    (lo hi : value) : bool :=
  match lookup_col c table_columns, lookup_col c cols with
  | Some kd, Some y =>
      match coerce kd lo, coerce kd hi with
      | Some lo', Some hi' => sql_leb lo' y && sql_leb y hi'
      | _, _ => false
      end
  | _, _ => false
  end.

(** Column [c] of the record is text matching the pattern. *)
Definition column_like (cols : list (string * value)) (c : string)
    (pat : value) : bool :=
  match lookup_col c cols, pat with
  | Some (VStr s), VStr p => like_match p s
  | _, _ => false
  end.

Definition holds_clause (cl : clause) (cols : list (string * value)) : bool :=
  match cl with
  | ClBetween k lo hi =>
      match plain_column k with
      | Some c => column_between cols c lo hi
      | None => false
      end
  | ClLike k pat =>
      match plain_column k with
      | Some c => column_like cols c pat
      | None => false
      end
  | ClEqual k x =>
      match plain_column k with
      | Some c => column_equals cols c x
      | None => false
      end
  end.

Definition eval_cond (c : Cond T) (r : T) : bool :=
  match c with
  | CondExpr query args =>
      match read_clause query args with
      | Some cl => holds_clause cl (columns r)
      | None => false
      end
  | CondStruct v =>
      forallb (fun kx => column_equals (columns r) (fst kx) (snd kx))
              (struct_conds v)
  | CondMap q =>
      forallb (fun kx => column_equals (columns r) (fst kx) (snd kx))
              (map_to_list q)
  end.

(** Every condition of the statement holds: conditions are ANDed. *)
Definition matches (s : Stmt T) (r : T) : bool :=
  forallb (fun c => eval_cond c r) (stmt_where s).

(** A record whose soft-deletion marker is set is hidden from every read. *)
Definition live (r : T) : bool :=
  match soft_delete_column with
  | None => true
  | Some c =>
      match lookup_col c (columns r) with
      | None => true
      | Some _ => false
      end
  end.

(** ** Ordering *)

(** One ordering text: a column and whether it descends. *)
Definition read_order (text : string) : error + (string * bool) :=
  match strip_suffix " DESC" text with
  | Some k =>
      match bind_column k with
      | inl e => inl e
      | inr (c, _) => inr (c, true)
      end
  | None =>
      match strip_suffix " ASC" text with
      | Some k =>
          match bind_column k with
          | inl e => inl e
          | inr (c, _) => inr (c, false)
          end
      | None => inl (err_syntax text)
      end
  end.

Definition check_order (text : string) : option error :=
  match read_order text with
  | inl e => Some e
  | inr _ => None
  end.

Definition key_eqb (a b : option value) : bool :=
  match a, b with
  | Some x, Some y => value_eqb x y
  | None, None => true
  | _, _ => false
  end.

(** [a] sorts strictly before [b] in ascending order; an absent value sorts
    last. *)
Definition key_ltb (a b : option value) : bool :=
  match a, b with
  | Some x, Some y => sql_leb x y && negb (value_eqb x y)
  | Some _, None => true
  | None, _ => false
  end.

Fixpoint row_leb (texts : list string) (r1 r2 : T) : bool :=
  match texts with
  | [] => true
  | text :: rest =>
      match read_order text with
      | inl _ => row_leb rest r1 r2
      | inr (c, desc) =>
          let a := lookup_col c (columns r1) in
          let b := lookup_col c (columns r2) in
          if key_eqb a b then row_leb rest r1 r2
          else if desc then key_ltb b a else key_ltb a b
      end
  end.

Fixpoint insert_row (texts : list string) (r : T) (l : list T) : list T :=
  match l with
  | [] => [r]
  | y :: rest =>
      if row_leb texts r y then r :: y :: rest
      else y :: insert_row texts r rest
  end.

(** A stable sort: records equal on every key keep their stored order. *)
Definition sort_rows (texts : list string) (l : list T) : list T :=
  fold_right (insert_row texts) [] l.

(** ** Omitted columns *)

Definition has_comma (s : string) : bool :=
  negb (string_forall (fun c => negb (Ascii.eqb c ",")) s).

Definition is_name_char (c : ascii) : bool :=
  is_upper c || is_lower c || is_digit c ||
  Ascii.eqb c "." || Ascii.eqb c "*" || Ascii.eqb c "_" ||
  Ascii.eqb c "$" || Ascii.eqb c "@".

(** The names in [s], separated by anything that cannot be part of one. *)
Fixpoint split_names (s : string) (cur : string) : list string :=
  match s with
  | EmptyString =>
      match cur with EmptyString => [] | String _ _ => [cur] end
  | String c s' =>
      if is_name_char c then split_names s' (cur +:+ String c EmptyString)
      else match cur with
           | EmptyString => split_names s' EmptyString
           | String _ _ => cur :: split_names s' EmptyString
           end
  end.

(** A single omitted name holding commas stands for the names it lists. *)
Definition omitted_names (omits : list string) : list string :=
  match omits with
  | [one] => if has_comma one then split_names one EmptyString else omits
  | _ => omits
  end.

(** The column a name given to Omit stands for: a column of the table, or
    the column of the Go field of that name. *)
Definition omitted_column (name : string) : option string :=
  match lookup_col name table_columns with
  | Some _ => Some name
  | None => lookup_col name table_fields
  end.

Fixpoint omitted_columns (names : list string) : list string :=
  match names with
  | [] => []
  | n :: rest =>
      match omitted_column n with
      | Some c => c :: omitted_columns rest
      | None => omitted_columns rest
      end
  end.

Definition mem_string (c : string) (l : list string) : bool :=
  existsb (String.eqb c) l.

(** The record as scanned when the named columns are left out of the
    selection; leaving every column out selects them all. *)
Definition project (omits : list string) (r : T) : T :=
  let cols := omitted_columns (omitted_names omits) in
  if forallb (fun ck => mem_string (fst ck) cols) table_columns
  then r
  else fold_left (fun r' c => clear_column c r') cols r.

(** ** The find *)

Definition check_preload (name : string) : option error :=
  if mem_string name table_relations then None
  else Some (err_relation name).

Definition selected (s : Stmt T) (rows : list T) : list T :=
  map (project (stmt_omit s))
      (sort_rows (stmt_order s)
                 (List.filter (fun r => live r && matches s r) rows)).

(** The conditions are checked first, then the ordering; a relation that
    cannot be loaded fails the find after the records were scanned. *)
Definition table_find (rows : list T) (s : Stmt T) : list T * option error :=
  match first_error check_cond (stmt_where s) with
  | Some e => ([], Some e)
  | None =>
      match first_error check_order (stmt_order s) with
      | Some e => ([], Some e)
      | None =>
          (selected s rows, first_error check_preload (stmt_preload s))
      end
  end.

(** A table that answers reads and refuses writes. *)
Definition mem_db (rows : list T) : DB T :=
  mkDB (fun s => (map Some (fst (table_find rows s)), snd (table_find rows s)))
       (fun _ v => (v, Some read_only))
       (fun _ v => (v, Some read_only))
       (fun _ _ => Some read_only).

End MemDB.

(** ** The record type of the test suite *)

(** [User] embeds the ORM's base model: key, timestamps and the
    soft-deletion marker (null on a record that was not deleted). *)
Record User : Type := mkStoredUser {
  ID : Z;
  CreatedAt : Z;
  UpdatedAt : Z;
  DeletedAt : option Z;
  Name : string;
  Age : Z
}.

(** A user that was not deleted. *)
Definition mkUser (id created updated : Z) (name : string) (age : Z) : User :=
  mkStoredUser id created updated None name age.

#[export] Instance User_schema : Schema User := fun u =>
  [("id", VInt (ID u)); ("created_at", VTime (CreatedAt u));
   ("updated_at", VTime (UpdatedAt u))] ++
  match DeletedAt u with
  | Some t => [("deleted_at", VTime t)]
  | None => []
  end ++
  [("name", VStr (Name u)); ("age", VInt (Age u))].

Definition User_clear (c : string) (u : User) : User :=
  if String.eqb c "id" then
    mkStoredUser 0 (CreatedAt u) (UpdatedAt u) (DeletedAt u) (Name u) (Age u)
  else if String.eqb c "created_at" then
    mkStoredUser (ID u) 0 (UpdatedAt u) (DeletedAt u) (Name u) (Age u)
  else if String.eqb c "updated_at" then
    mkStoredUser (ID u) (CreatedAt u) 0 (DeletedAt u) (Name u) (Age u)
  else if String.eqb c "deleted_at" then
    mkStoredUser (ID u) (CreatedAt u) (UpdatedAt u) None (Name u) (Age u)
  else if String.eqb c "name" then
    mkStoredUser (ID u) (CreatedAt u) (UpdatedAt u) (DeletedAt u)
                 EmptyString (Age u)
  else if String.eqb c "age" then
    mkStoredUser (ID u) (CreatedAt u) (UpdatedAt u) (DeletedAt u) (Name u) 0
  else u.

#[export] Instance User_table : Table User :=
  {| table_columns :=
       [("id", KInt); ("created_at", KTime); ("updated_at", KTime);
        ("deleted_at", KTime); ("name", KStr); ("age", KInt)];
     table_fields :=
       [("ID", "id"); ("CreatedAt", "created_at"); ("UpdatedAt", "updated_at");
        ("DeletedAt", "deleted_at"); ("Name", "name"); ("Age", "age")];
     table_relations := [];
     soft_delete_column := Some "deleted_at";
     clear_column := User_clear |}.

Definition u1 : User := mkUser 1 10 10 "a" 11.
Definition u2 : User := mkUser 2 20 20 "a" 12.
Definition users : list User := [u1; u2].

(** A third user, soft-deleted at instant 30. *)
Definition u3_deleted : User := mkStoredUser 3 25 25 (Some 30%Z) "c" 13.

(** * Properties stated below *)

(** The three outcomes of a singleton call over the slice [res] the find
    produced. *)
Definition three_way {T : Type} (res : list (ptr T))
    (r : ptr T * option error) : Prop :=
  (length res = 0%nat -> r = (None, Some ErrRecordNotFound)) /\
  (forall p, res = [p] -> r = (p, None)) /\
  ((2 <= length res)%nat -> r = (None, Some MultipleResultsError)).

(** The find fills its slice with pointers to freshly scanned records. *)
Definition fills_non_nil {T : Type} (d : DB T) : Prop :=
  forall s, Forall (fun p : ptr T => p <> None) (fst (db_Find d s)).

(** Exactly one of record and error is present. *)
Definition record_xor_error {T : Type} (r : ptr T * option error) : Prop :=
  (snd r <> None -> fst r = None) /\ (snd r = None -> fst r <> None).

Definition valid_direction (ob : OrderBy) : Prop := ob = ASC \/ ob = DESC.

(** An error that is neither NotFound nor MultipleResults. *)
Definition no_sentinel (e : error) : Prop :=
  errors_Is e ErrRecordNotFound = false /\
  errors_Is e MultipleResultsError = false.

(** The find reports its own failures only: finding no record, or several,
    is not an error for it. *)
Definition find_reports_no_sentinel {T : Type} (d : DB T) : Prop :=
  forall s e, snd (db_Find d s) = Some e -> no_sentinel e.

(** A record passes the condition emitted for every substring, range and
    equality clause of [q]. *)
Definition passes_query {T : Type} `{Schema T} `{Table T} `{Dialect}
    (q : Query_t) (r : T) : Prop :=
  (forall k v, q_Like q !! k = Some v -> eval_cond (like_cond k v) r = true) /\
  (forall k b, q_Between q !! k = Some b ->
               eval_cond (between_cond k b) r = true) /\
  (forall k v, q_Equal q !! k = Some v -> eval_cond (equal_cond k v) r = true).

(** A record equals the example on every attribute the example has away
    from its zero value. *)
Definition passes_example {T : Type} `{Schema T} `{Table T} `{Dialect}
    (v r : T) : Prop :=
  forall k x, In (k, x) (columns v) -> is_zero x = false ->
              column_equals (columns r) k x = true.


(** [q] without its range clause, or its substring clause, on [k]. *)
Definition without_between (k : string) (q : Query_t) : Query_t :=
  mkQuery (q_Omit q) (q_Preload q) (q_OrderBy q) (q_Equal q) (q_Like q)
          (delete k (q_Between q)).

Definition without_like (k : string) (q : Query_t) : Query_t :=
  mkQuery (q_Omit q) (q_Preload q) (q_OrderBy q) (q_Equal q)
          (delete k (q_Like q)) (q_Between q).

(** Sample queries over the users table. *)
Definition q_age_12_to_11 : Query_t :=
  mkQuery [] [] ∅ ∅ ∅ {[ "age" := mkBetween (VInt 12) (VInt 11) ]}.

Definition q_age_11_to_12 : Query_t :=
  mkQuery [] [] ∅ ∅ ∅ {[ "age" := mkBetween (VInt 11) (VInt 12) ]}.

Definition q_age_11_to_12_name_zzz : Query_t :=
  mkQuery [] [] ∅ {[ "name" := "zzz" ]} ∅
          {[ "age" := mkBetween (VInt 11) (VInt 12) ]}.


Definition q_name_like_underscore : Query_t :=
  mkQuery [] [] ∅ ∅ {[ "name" := "_" ]} ∅.

Definition q_name_like_a : Query_t :=
  mkQuery [] [] {[ "id" := DESC ]} ∅ {[ "name" := "a" ]} ∅.

Definition q_id_equal_1 : Query_t :=
  mkQuery [] [] ∅ {[ "id" := "1" ]} ∅ ∅.

Definition q_unknown_column : Query_t :=
  mkQuery [] [] ∅ {[ "nickname" := "a" ]} ∅ ∅.

(** * The first version of the package (src/unnamed/part_001)

    Records travel by value: the find fills a slice of records, and a
    failed [QueryOne] returns the zero value of the record type.  Only the
    reads are embedded. *)
Module PartOne.

(** [*new(T)]: the zero value of the record type. *)
Class Zero (T : Type) := zero : T.

Record DB (T : Type) : Type := mkDB {
  db_Find : Stmt T -> list T * option error
}.
Arguments mkDB {T} _.
Arguments db_Find {T} _ _.

Record GenericCRUD (T : Type) : Type := mkCRUD { db : DB T }.
Arguments mkCRUD {T} _.
Arguments db {T} _.

Definition New {T : Type} (d : DB T) : GenericCRUD T := mkCRUD d.

Definition Query {T : Type} (g : GenericCRUD T) (v : T)
  : list T * option error :=
  db_Find (db g) (Where (CondStruct v) session).

Definition QueryOne {T : Type} `{Zero T} (g : GenericCRUD T) (v : T)
  : T * option error :=
  let (res, err) := db_Find (db g) (Where (CondStruct v) session) in
  match err with
  | Some e =>
      if negb (errors_Is e ErrRecordNotFound)
      then (zero, Some (Errorf_w "db error: " e))
      else (zero, Some e)
  | None =>
      if Nat.eqb (length res) 0 then (zero, Some ErrRecordNotFound)
      else if Nat.ltb 1 (length res) then (zero, Some MultipleResultsError)
      else (match res with r :: _ => r | [] => zero end, None)
  end.

(** The in-memory table, answering by value. *)
Definition mem_db {T : Type} `{Schema T} `{Table T} `{Dialect}
    (rows : list T) : DB T :=
  mkDB (table_find rows).

End PartOne.

#[export] Instance User_zero : PartOne.Zero User :=
  mkUser 0 0 0 EmptyString 0.

(** What a by-value result looks like once records travel by pointer: the
    record on success, [nil] beside every error. *)
Definition by_pointer {T : Type} (r : T * option error) : ptr T * option error :=
  match snd r with
  | None => (Some (fst r), None)
  | Some e => (None, Some e)
  end.

(** The four outcomes of a singleton call, each tied to what the find
    produced: no error for one record found, MultipleResultsError for
    several, the NotFound sentinel for none, and for a failed find that
    find's own error, as it is when it is NotFound and wrapped otherwise. *)
Definition outcome_matches_find {T : Type}
    (found : list (ptr T) * option error) (r : ptr T * option error) : Prop :=
  (snd r = None <-> exists p, found = ([p], None)) /\
  (snd r = Some MultipleResultsError <->
   exists res, found = (res, None) /\ (2 <= length res)%nat) /\
  (forall e,
      snd r = Some e /\ errors_Is e ErrRecordNotFound = true <->
      (found = ([], None) /\ e = ErrRecordNotFound) \/
      (exists res, found = (res, Some e) /\
                   errors_Is e ErrRecordNotFound = true)) /\
  (forall e,
      snd r = Some (Errorf_w "db error: " e) /\
      errors_Is e ErrRecordNotFound = false <->
      exists res, found = (res, Some e) /\
                  errors_Is e ErrRecordNotFound = false).

(** The text one ordering directive adds to the chain. *)
Definition renders (kv : string * OrderBy) (text : string) : Prop :=
  (snd kv = ASC /\ text = fst kv +:+ " ASC") \/
  (snd kv = DESC /\ text = fst kv +:+ " DESC").

(** The ordering text of one directive of a valid direction. *)
Definition order_text (kv : string * OrderBy) : string :=
  fst kv +:+ (if N.eqb (snd kv) ASC then " ASC" else " DESC").

(** Two handles whose finds return the same records, possibly in another
    order, with the same error. *)
Definition same_rows_found {T : Type} (d d' : DB T) : Prop :=
  forall s,
    Permutation (fst (db_Find d s)) (fst (db_Find d' s)) /\
    snd (db_Find d s) = snd (db_Find d' s).

(** A handle every call of which fails with [e], whatever it scanned. *)
Definition failing_db {T : Type} (scanned : list (ptr T)) (e : error) : DB T :=
  mkDB (fun _ => (scanned, Some e))
       (fun _ v => (v, Some e))
       (fun _ v => (v, Some e))
       (fun _ _ => Some e).

Definition q_order_by_zero : Query_t :=
  mkQuery [] [] {[ "id" := 0%N ]} ∅ {[ "name" := "a" ]} ∅.

Definition q_full : Query_t :=
  mkQuery ["age"] ["Orders"; "Profile"] {[ "id" := DESC ]}
          {[ "name" := "a" ]} {[ "name" := "a" ]}
          {[ "age" := mkBetween (VInt 11) (VInt 12) ]}.

(** * Lemmas on the generic code *)

Section CrudFacts.
Context {T : Type}.
Implicit Types (g : GenericCRUD T) (s : Stmt T) (res : list (ptr T)).

Lemma QueryOne_resolve g (v : T) omit' :
  QueryOne g v omit' = resolve_singleton (db_Find (db g) (Query_stmt g v omit')).
Proof.
  unfold QueryOne, resolve_singleton.
  destruct (db_Find (db g) (Query_stmt g v omit')) as [res [e|]]; simpl.
  - destruct (errors_Is e ErrRecordNotFound); reflexivity.
  - destruct res as [|p [|p' res]]; reflexivity.
Qed.

Lemma QueryMapOne_resolve g (q : gmap string value) omit' :
  QueryMapOne g q omit' = resolve_singleton (QueryMap g q omit').
Proof.
  unfold QueryMapOne, resolve_singleton.
  destruct (QueryMap g q omit') as [res [e|]]; simpl.
  - destruct (errors_Is e ErrRecordNotFound); reflexivity.
  - destruct res as [|p [|p' res]]; reflexivity.
Qed.

Lemma SmartQueryOne_resolve (visit : RangeOrder) g (q : Query_t) :
  SmartQueryOne visit g q = omap resolve_singleton (SmartQuery visit g q).
Proof.
  unfold SmartQueryOne, omap, obind.
  destruct (SmartQuery visit g q) as [[res [e|]]|msg]; try reflexivity.
  - unfold resolve_singleton; simpl.
    destruct (errors_Is e ErrRecordNotFound); reflexivity.
  - destruct res as [|p [|p' res]]; reflexivity.
Qed.

Lemma resolve_three_way res :
  three_way res (resolve_singleton (res, None)).
Proof.
  unfold three_way, resolve_singleton. destruct res as [|p [|p' res]]; simpl.
  - repeat split; try reflexivity; try discriminate. lia.
  - repeat split; try discriminate; try lia. intros q [= ->]. reflexivity.
  - repeat split; try discriminate; try reflexivity.
Qed.

Lemma resolve_xor (out : list (ptr T) * option error) :
  Forall (fun p : ptr T => p <> None) (fst out) ->
  record_xor_error (resolve_singleton out).
Proof.
  destruct out as [res [e|]]; unfold record_xor_error, resolve_singleton; simpl.
  - intros _. split; [reflexivity | discriminate].
  - intros Hall. destruct res as [|p [|p' res]]; simpl.
    + split; [reflexivity | discriminate].
    + split; [intros Hne; exfalso; apply Hne; reflexivity |].
      intros _. inversion Hall; assumption.
    + split; [reflexivity | discriminate].
Qed.

Lemma resolve_agrees (out : list (ptr T) * option error) (p : ptr T) :
  resolve_singleton out = (p, None) <-> out = ([p], None).
Proof.
  destruct out as [res [e|]]; unfold resolve_singleton; simpl.
  - split; [|discriminate].
    destruct (errors_Is e ErrRecordNotFound); discriminate.
  - destruct res as [|p0 [|p1 res]]; simpl; split;
      try discriminate; intros [= ->]; reflexivity.
Qed.

(** The ordering loop leaves the conditions and omits alone, and returns
    exactly when every direction it renders is a declared one. *)
Lemma order_loop_frame kvs : forall s s',
  order_loop kvs s = Ret s' ->
  stmt_where s' = stmt_where s /\ stmt_omit s' = stmt_omit s /\
  stmt_preload s' = stmt_preload s.
Proof.
  induction kvs as [|[k ob] kvs IH]; intros s s'; simpl.
  - intros [= <-]. repeat split.
  - destruct (OrderBy_String ob) as [dir|msg]; simpl; [|discriminate].
    intros Hrun. apply IH in Hrun. exact Hrun.
Qed.

Lemma order_loop_returns kvs : forall s,
  Forall (fun kv : string * OrderBy => valid_direction (snd kv)) kvs ->
  exists s', order_loop kvs s = Ret s'.
Proof.
  induction kvs as [|[k ob] kvs IH]; intros s Hall; simpl.
  - eexists; reflexivity.
  - inversion Hall as [|? ? Hob Hrest]; subst. simpl in Hob.
    destruct Hob as [-> | ->]; simpl; apply IH; assumption.
Qed.

Lemma order_loop_panics kvs : forall s msg,
  order_loop kvs s = Panic msg ->
  msg = "unknown OrderBy" /\
  exists kv, In kv kvs /\ ~ valid_direction (snd kv).
Proof.
  induction kvs as [|[k ob] kvs IH]; intros s msg; simpl.
  - discriminate.
  - unfold OrderBy_String at 1.
    destruct (N.eqb_spec ob ASC) as [->|Ha]; simpl.
    + intros Hrun. apply IH in Hrun as (-> & kv & Hin & Hbad).
      split; [reflexivity|]. exists kv. split; [right; exact Hin | exact Hbad].
    + destruct (N.eqb_spec ob DESC) as [->|Hd]; simpl.
      * intros Hrun. apply IH in Hrun as (-> & kv & Hin & Hbad).
        split; [reflexivity|]. exists kv. split; [right; exact Hin | exact Hbad].
      * intros [= <-]. split; [reflexivity|].
        exists (k, ob). split; [left; reflexivity|].
        intros [E|E]; simpl in E; contradiction.
Qed.

Lemma fold_Where_where {A : Type} (f : A -> Cond T) (l : list A) : forall s,
  stmt_where (fold_left (fun s a => Where (f a) s) l s)
  = stmt_where s ++ map f l.
Proof.
  induction l as [|a l IH]; intros s; simpl.
  - rewrite app_nil_r. reflexivity.
  - rewrite IH. simpl. rewrite <- app_assoc. reflexivity.
Qed.

Lemma fold_Preload_where (l : list string) : forall s,
  stmt_where (preload_loop l s) = stmt_where s.
Proof.
  unfold preload_loop.
  induction l as [|a l IH]; intros s; simpl; [reflexivity|].
  rewrite IH. reflexivity.
Qed.

(** The conditions of the chain [SmartQuery] executes: the substring
    clauses, then the range clauses, then the equality clauses, each group in
    the order the run visited its map. *)
Lemma SmartQuery_stmt_where (visit : RangeOrder) (q : Query_t) s :
  SmartQuery_stmt visit q = Ret s ->
  stmt_where s =
    map (fun kv => like_cond (fst kv) (snd kv)) (visit _ (q_Like q)) ++
    map (fun kv => between_cond (fst kv) (snd kv)) (visit _ (q_Between q)) ++
    map (fun kv => equal_cond (fst kv) (snd kv)) (visit _ (q_Equal q)).
Proof.
  unfold SmartQuery_stmt.
  destruct (order_loop _ _) as [s0|msg] eqn:Hord; simpl; [|discriminate].
  intros [= <-].
  apply order_loop_frame in Hord as (Hw & _ & _).
  rewrite fold_Preload_where in Hw. simpl in Hw.
  unfold equal_loop, between_loop, like_loop.
  rewrite !fold_Where_where, Hw. simpl. rewrite <- app_assoc. reflexivity.
Qed.

Lemma SmartQuery_stmt_returns (visit : RangeOrder) (q : Query_t) :
  Forall (fun kv : string * OrderBy => valid_direction (snd kv))
         (visit _ (q_OrderBy q)) ->
  exists s : Stmt T, SmartQuery_stmt visit q = Ret s.
Proof.
  intros Hall. unfold SmartQuery_stmt.
  destruct (order_loop_returns _ (preload_loop (q_Preload q)
              (Omit (q_Omit q) session)) Hall) as [s0 Hs0].
  rewrite Hs0. simpl. eexists; reflexivity.
Qed.

End CrudFacts.


(** * Lemmas on the reference collaborator *)

Lemma append_nil_l (s : string) : EmptyString +:+ s = s.
Proof. reflexivity. Qed.

Lemma append_cons (c : ascii) (a b : string) :
  String c a +:+ b = String c (a +:+ b).
Proof. reflexivity. Qed.

Lemma append_nil_r (s : string) : s +:+ EmptyString = s.
Proof.
  induction s as [|d s IH]; [reflexivity|].
  rewrite append_cons, IH. reflexivity.
Qed.

Lemma list_ascii_of_string_app (a b : string) :
  list_ascii_of_string (a +:+ b)
  = list_ascii_of_string a ++ list_ascii_of_string b.
Proof.
  induction a as [|c a IH]; simpl; [reflexivity|].
  rewrite IH. reflexivity.
Qed.

Lemma strip_prefix_app (p s : list ascii) : strip_prefix p (p ++ s) = Some s.
Proof.
  induction p as [|a p IH]; simpl; [reflexivity|].
  rewrite Ascii.eqb_refl. exact IH.
Qed.

Lemma strip_suffix_app (suf k : string) : strip_suffix suf (k +:+ suf) = Some k.
Proof.
  unfold strip_suffix.
  rewrite list_ascii_of_string_app, rev_app_distr, strip_prefix_app.
  simpl. rewrite rev_involutive, string_of_list_ascii_of_string. reflexivity.
Qed.

Lemma strip_suffix_like_of_equal (k : string) :
  strip_suffix " LIKE ?" (k +:+ " = ?") = None.
Proof.
  unfold strip_suffix.
  rewrite list_ascii_of_string_app, rev_app_distr. reflexivity.
Qed.

(** ** Reading the emitted conditions *)

Lemma read_clause_between (k : string) (lo hi : value) :
  read_clause (k +:+ " BETWEEN ? AND ?") [lo; hi] = Some (ClBetween k lo hi).
Proof. unfold read_clause. rewrite strip_suffix_app. reflexivity. Qed.

Lemma read_clause_like (k : string) (pat : value) :
  read_clause (k +:+ " LIKE ?") [pat] = Some (ClLike k pat).
Proof.
  unfold read_clause.
  destruct (strip_suffix " BETWEEN ? AND ?" _); rewrite strip_suffix_app;
    reflexivity.
Qed.

Lemma read_clause_equal (k : string) (x : value) :
  read_clause (k +:+ " = ?") [x] = Some (ClEqual k x).
Proof.
  unfold read_clause.
  destruct (strip_suffix " BETWEEN ? AND ?" _);
    rewrite strip_suffix_like_of_equal, strip_suffix_app; reflexivity.
Qed.

(** ** The [LIKE] matcher *)

Lemma like_match_percent_unfold (p s : string) :
  like_match (String "%" p) s
  = like_match p s ||
    match s with
    | EmptyString => false
    | String _ s' => like_match (String "%" p) s'
    end.
Proof. destruct s; reflexivity. Qed.

Lemma like_match_plain_unfold (c : ascii) (p s : string) :
  like_meta c = false ->
  like_match (String c p) s
  = match s with
    | EmptyString => false
    | String d s' => Ascii.eqb c d && like_match p s'
    end.
Proof.
  unfold like_meta. intros Hc.
  apply orb_false_iff in Hc as [Hc Hb].
  apply orb_false_iff in Hc as [Hp Hu].
  simpl. rewrite Hp, Hu, Hb. reflexivity.
Qed.

Lemma like_match_percent (p s : string) :
  like_match (String "%" p) s = true <->
  exists pre post : string, s = pre +:+ post /\ like_match p post = true.
Proof.
  split.
  - induction s as [|d s IH]; rewrite like_match_percent_unfold.
    + rewrite orb_false_r. intros Hm. exists EmptyString, EmptyString.
      split; [reflexivity | exact Hm].
    + intros Hm. apply orb_true_iff in Hm as [Hm|Hm].
      * exists EmptyString, (String d s). split; [reflexivity | exact Hm].
      * destruct (IH Hm) as (pre & post & -> & Hpost).
        exists (String d pre), post. split; [reflexivity | exact Hpost].
  - intros (pre & post & -> & Hpost).
    induction pre as [|d pre IH]; rewrite ?append_cons, ?append_nil_l.
    + rewrite like_match_percent_unfold, Hpost. reflexivity.
    + rewrite like_match_percent_unfold, IH. apply orb_true_r.
Qed.

Lemma like_match_percent_only (s : string) : like_match "%" s = true.
Proof.
  apply like_match_percent. exists s, EmptyString.
  split; [symmetry; apply append_nil_r | reflexivity].
Qed.

Lemma like_match_plain_app (v q : string) :
  like_plain v = true ->
  forall s : string,
    like_match (v +:+ q) s = true <->
    exists rest : string, s = v +:+ rest /\ like_match q rest = true.
Proof.
  induction v as [|c v IH]; intros Hv s; rewrite ?append_cons, ?append_nil_l.
  - split.
    + intros Hm. exists s. split; [reflexivity | exact Hm].
    + intros (rest & -> & Hm). exact Hm.
  - simpl in Hv. apply andb_true_iff in Hv as [Hc Hv].
    apply negb_true_iff in Hc.
    rewrite (like_match_plain_unfold c _ s Hc).
    destruct s as [|d s].
    + split; [discriminate|]. intros (rest & Hs & _). discriminate.
    + split.
      * intros Hm. apply andb_true_iff in Hm as [Hcd Hm].
        apply Ascii.eqb_eq in Hcd as <-.
        apply (IH Hv) in Hm as (rest & -> & Hrest).
        exists rest. split; [reflexivity | exact Hrest].
      * intros (rest & [= -> ->] & Hrest).
        rewrite Ascii.eqb_refl. simpl.
        apply (IH Hv). exists rest. split; [reflexivity | exact Hrest].
Qed.

(** Between two [%], a pattern free of special characters matches exactly
    the strings that contain it. *)
Lemma like_match_wrapped (v s : string) :
  like_plain v = true ->
  like_match ("%" +:+ v +:+ "%") s = true <-> contains s v.
Proof.
  intros Hv. rewrite ?append_cons, ?append_nil_l. rewrite like_match_percent. unfold contains.
  split.
  - intros (pre & post & -> & Hm).
    apply (like_match_plain_app v "%" Hv) in Hm as (rest & -> & _).
    exists pre, rest. reflexivity.
  - intros (pre & post & ->). exists pre, (v +:+ post). split; [reflexivity|].
    apply (like_match_plain_app v "%" Hv). exists post.
    split; [reflexivity | apply like_match_percent_only].
Qed.

Lemma forallb_Permutation {A : Type} (f : A -> bool) (l l' : list A) :
  Permutation l l' -> forallb f l = forallb f l'.
Proof.
  induction 1 as [|x l l' _ IH|x y l|l l' l'' _ IH1 _ IH2]; simpl.
  - reflexivity.
  - rewrite IH. reflexivity.
  - destruct (f x), (f y); reflexivity.
  - rewrite IH1. exact IH2.
Qed.

Lemma filter_none {A : Type} (f : A -> bool) (l : list A) :
  (forall x, In x l -> f x = false) -> List.filter f l = [].
Proof.
  induction l as [|a l IH]; intros Hall; simpl; [reflexivity|].
  rewrite (Hall a (or_introl eq_refl)). apply IH.
  intros x Hx. apply Hall. right. exact Hx.
Qed.

Lemma filter_all {A : Type} (f : A -> bool) (l : list A) :
  (forall x, In x l -> f x = true) -> List.filter f l = l.
Proof.
  induction l as [|a l IH]; intros Hall; simpl; [reflexivity|].
  rewrite (Hall a (or_introl eq_refl)). f_equal. apply IH.
  intros x Hx. apply Hall. right. exact Hx.
Qed.

Lemma filter_Permutation {A : Type} (f : A -> bool) (l l' : list A) :
  Permutation l l' -> Permutation (List.filter f l) (List.filter f l').
Proof.
  induction 1 as [|x l l' _ IH|x y l|l l' l'' _ IH1 _ IH2]; simpl.
  - constructor.
  - destruct (f x); [constructor|]; exact IH.
  - destruct (f x), (f y); try reflexivity. constructor.
  - etransitivity; eassumption.
Qed.

(** ** Ordering of values *)

Lemma sql_leb_refl `{Dialect} (x : value) : sql_leb x x = true.
Proof.
  destruct x as [n|s|t]; simpl.
  - apply Z.leb_refl.
  - apply text_leb_refl.
  - apply Z.leb_refl.
Qed.

(** ** Checks *)


Lemma first_error_Some {A : Type} (f : A -> option error) (l : list A)
    (e : error) :
  first_error f l = Some e -> exists a, In a l /\ f a = Some e.
Proof.
  induction l as [|a l IH]; simpl; [discriminate|].
  destruct (f a) as [e0|] eqn:Hfa.
  - intros [= <-]. exists a. split; [left; reflexivity | exact Hfa].
  - intros Hl. destruct (IH Hl) as (b & Hb & Hfb).
    exists b. split; [right; exact Hb | exact Hfb].
Qed.


Lemma no_sentinel_syntax (text : string) : no_sentinel (err_syntax text).
Proof. split; reflexivity. Qed.

Lemma no_sentinel_no_column (c : string) : no_sentinel (err_no_column c).
Proof. split; reflexivity. Qed.

Lemma no_sentinel_input (c : string) : no_sentinel (err_input c).
Proof. split; reflexivity. Qed.

Lemma no_sentinel_operator (c : string) : no_sentinel (err_operator c).
Proof. split; reflexivity. Qed.

Lemma no_sentinel_relation (name : string) : no_sentinel (err_relation name).
Proof. split; reflexivity. Qed.

Section MemFacts.
Context {T : Type} `{Schema T} `{Table T} `{Dialect}.

Lemma bind_column_error (k : string) (e : error) :
  bind_column k = inl e -> no_sentinel e.
Proof.
  unfold bind_column. destruct (plain_column k) as [c|].
  - destruct (lookup_col c table_columns); [discriminate|].
    intros [= <-]. apply no_sentinel_no_column.
  - intros [= <-]. apply no_sentinel_syntax.
Qed.

Lemma check_value_error (c : string) (kd : kind) (x : value) (e : error) :
  check_value c kd x = Some e -> no_sentinel e.
Proof.
  unfold check_value. destruct (coerce kd x); [discriminate|].
  intros [= <-]. apply no_sentinel_input.
Qed.

Lemma check_clause_error (cl : clause) (e : error) :
  check_clause cl = Some e -> no_sentinel e.
Proof.
  destruct cl as [k lo hi|k pat|k x]; simpl;
    destruct (bind_column k) as [e0|[c kd]] eqn:Hb;
    try (intros [= <-]; apply (bind_column_error k), Hb).
  - destruct (check_value c kd lo) as [e1|] eqn:Hlo.
    + intros [= <-]. apply (check_value_error c kd lo), Hlo.
    + apply check_value_error.
  - destruct kd, pat; try discriminate;
      intros [= <-]; apply no_sentinel_operator.
  - apply check_value_error.
Qed.

Lemma check_pair_error (kx : string * value) (e : error) :
  check_pair kx = Some e -> no_sentinel e.
Proof.
  unfold check_pair, bind_exact.
  destruct (lookup_col (fst kx) table_columns) as [kd|].
  - apply check_value_error.
  - intros [= <-]. apply no_sentinel_no_column.
Qed.

Lemma check_cond_error (c : Cond T) (e : error) :
  check_cond c = Some e -> no_sentinel e.
Proof.
  destruct c as [query args|v|q]; simpl.
  - destruct (read_clause query args) as [cl|].
    + apply check_clause_error.
    + intros [= <-]. apply no_sentinel_syntax.
  - intros He. apply first_error_Some in He as (kx & _ & Hkx).
    apply (check_pair_error kx), Hkx.
  - intros He. apply first_error_Some in He as (kx & _ & Hkx).
    apply (check_pair_error kx), Hkx.
Qed.

Lemma check_order_error (text : string) (e : error) :
  check_order text = Some e -> no_sentinel e.
Proof.
  unfold check_order, read_order.
  destruct (strip_suffix " DESC" text) as [k|].
  - destruct (bind_column k) as [e0|[c kd]] eqn:Hb; [|discriminate].
    intros [= <-]. apply (bind_column_error k), Hb.
  - destruct (strip_suffix " ASC" text) as [k|].
    + destruct (bind_column k) as [e0|[c kd]] eqn:Hb; [|discriminate].
      intros [= <-]. apply (bind_column_error k), Hb.
    + intros [= <-]. apply no_sentinel_syntax.
Qed.

Lemma check_preload_error (name : string) (e : error) :
  check_preload name = Some e -> no_sentinel e.
Proof.
  unfold check_preload. destruct (mem_string name table_relations);
    [discriminate|].
  intros [= <-]. apply no_sentinel_relation.
Qed.

(** ** Sorting *)

Lemma insert_row_Permutation (texts : list string) (r : T) (l : list T) :
  Permutation (insert_row texts r l) (r :: l).
Proof.
  induction l as [|y l IH]; simpl; [reflexivity|].
  destruct (row_leb texts r y); [reflexivity|].
  rewrite IH. apply perm_swap.
Qed.

Lemma sort_rows_Permutation (texts : list string) (l : list T) :
  Permutation (sort_rows texts l) l.
Proof.
  unfold sort_rows. induction l as [|r l IH]; simpl; [reflexivity|].
  rewrite insert_row_Permutation. constructor. exact IH.
Qed.


(** ** The find *)

Lemma table_find_cases (rows : list T) (s : Stmt T) :
  (exists e, first_error check_cond (stmt_where s) = Some e /\
             table_find rows s = ([], Some e)) \/
  (first_error check_cond (stmt_where s) = None /\
   exists e, first_error check_order (stmt_order s) = Some e /\
             table_find rows s = ([], Some e)) \/
  (first_error check_cond (stmt_where s) = None /\
   first_error check_order (stmt_order s) = None /\
   table_find rows s
   = (selected s rows, first_error check_preload (stmt_preload s))).
Proof.
  unfold table_find.
  destruct (first_error check_cond (stmt_where s)) as [e|].
  - left. exists e. split; reflexivity.
  - right. destruct (first_error check_order (stmt_order s)) as [e|].
    + left. split; [reflexivity|]. exists e. split; reflexivity.
    + right. repeat split.
Qed.

Lemma table_find_success (rows : list T) (s : Stmt T) :
  snd (table_find rows s) = None ->
  first_error check_cond (stmt_where s) = None /\
  first_error check_order (stmt_order s) = None /\
  first_error check_preload (stmt_preload s) = None /\
  fst (table_find rows s) = selected s rows.
Proof.
  destruct (table_find_cases rows s)
    as [(e & _ & ->)|[(_ & e & _ & ->)|(Hc & Ho & ->)]]; simpl;
    try discriminate.
  intros Hp. repeat split; assumption.
Qed.

Lemma table_find_error (rows : list T) (s : Stmt T) (e : error) :
  snd (table_find rows s) = Some e -> no_sentinel e.
Proof.
  destruct (table_find_cases rows s)
    as [(e0 & He & ->)|[(_ & e0 & He & ->)|(_ & _ & ->)]]; simpl.
  - intros [= <-]. apply first_error_Some in He as (c & _ & Hc).
    apply (check_cond_error c), Hc.
  - intros [= <-]. apply first_error_Some in He as (t & _ & Ht).
    apply (check_order_error t), Ht.
  - intros He. apply first_error_Some in He as (n & _ & Hn).
    apply (check_preload_error n), Hn.
Qed.

Lemma selected_In (rows : list T) (s : Stmt T) (p : T) :
  In p (selected s rows) <->
  exists r, p = project (stmt_omit s) r /\ In r rows /\ live r = true /\
            forall c, In c (stmt_where s) -> eval_cond c r = true.
Proof.
  unfold selected. rewrite in_map_iff. split.
  - intros (r & <- & Hin).
    apply (Permutation_in r (sort_rows_Permutation _ _)) in Hin.
    apply filter_In in Hin as (Hin & Hlm).
    apply andb_true_iff in Hlm as (Hl & Hm).
    exists r. split; [reflexivity|]. split; [exact Hin|]. split; [exact Hl|].
    unfold matches in Hm. rewrite forallb_forall in Hm. exact Hm.
  - intros (r & -> & Hin & Hl & Hall). exists r. split; [reflexivity|].
    apply (Permutation_in r (Permutation_sym (sort_rows_Permutation _ _))).
    apply filter_In. split; [exact Hin|].
    apply andb_true_iff. split; [exact Hl|].
    unfold matches. apply forallb_forall. exact Hall.
Qed.

Lemma mem_find_spec (rows : list T) (s : Stmt T) :
  db_Find (mem_db rows) s
  = (map Some (fst (table_find rows s)), snd (table_find rows s)).
Proof. reflexivity. Qed.

Lemma mem_find_success (rows : list T) (s : Stmt T) (res : list (ptr T)) :
  db_Find (mem_db rows) s = (res, None) ->
  res = map Some (selected s rows) /\
  first_error check_cond (stmt_where s) = None.
Proof.
  rewrite mem_find_spec. intros [= <- Herr].
  destruct (table_find_success rows s Herr) as (Hc & _ & _ & ->).
  split; [reflexivity | exact Hc].
Qed.

Lemma mem_find_In (rows : list T) (s : Stmt T) (res : list (ptr T))
    (p : ptr T) :
  db_Find (mem_db rows) s = (res, None) ->
  In p res <->
  exists r, p = Some (project (stmt_omit s) r) /\ In r rows /\
            live r = true /\
            forall c, In c (stmt_where s) -> eval_cond c r = true.
Proof.
  intros Hfind. apply mem_find_success in Hfind as (-> & _).
  rewrite in_map_iff. split.
  - intros (x & <- & Hx). apply selected_In in Hx as (r & -> & Hr).
    exists r. split; [reflexivity | exact Hr].
  - intros (r & -> & Hr). exists (project (stmt_omit s) r).
    split; [reflexivity|]. apply selected_In. exists r.
    split; [reflexivity | exact Hr].
Qed.

Lemma mem_find_non_nil (rows : list T) : fills_non_nil (mem_db rows).
Proof.
  intros s. rewrite mem_find_spec. cbn [fst].
  apply List.Forall_forall. intros p Hp.
  apply in_map_iff in Hp as (r & <- & _). discriminate.
Qed.

Lemma mem_find_no_sentinel (rows : list T) :
  find_reports_no_sentinel (mem_db rows).
Proof.
  intros s e. rewrite mem_find_spec. cbn [snd]. apply table_find_error.
Qed.

Lemma matches_Permutation (s s' : Stmt T) (r : T) :
  Permutation (stmt_where s) (stmt_where s') -> matches s r = matches s' r.
Proof. intros Hp. unfold matches. apply forallb_Permutation. exact Hp. Qed.

Lemma selected_Permutation (rows rows' : list T) (s s' : Stmt T) :
  Permutation rows rows' ->
  Permutation (stmt_where s) (stmt_where s') ->
  stmt_omit s = stmt_omit s' ->
  Permutation (selected s rows) (selected s' rows').
Proof.
  intros Hrows Hw Ho. unfold selected. rewrite Ho.
  apply Permutation_map.
  rewrite !sort_rows_Permutation.
  rewrite (filter_ext (fun r => live r && matches s r)
                      (fun r => live r && matches s' r)).
  - apply filter_Permutation. exact Hrows.
  - intros r. rewrite (matches_Permutation s s' r Hw). reflexivity.
Qed.



(** ** The emitted conditions, read *)

Lemma eval_like_cond (k v : string) (r : T) :
  eval_cond (like_cond k v) r
  = match plain_column k with
    | Some c => column_like (columns r) c (VStr ("%" +:+ v +:+ "%"))
    | None => false
    end.
Proof. unfold like_cond. simpl. rewrite read_clause_like. reflexivity. Qed.

Lemma eval_between_cond (k : string) (b : Between) (r : T) :
  eval_cond (between_cond k b) r
  = match plain_column k with
    | Some c => column_between (columns r) c (From b) (To b)
    | None => false
    end.
Proof.
  unfold between_cond. simpl. rewrite read_clause_between. reflexivity.
Qed.

Lemma eval_equal_cond (k v : string) (r : T) :
  eval_cond (equal_cond k v) r
  = match plain_column k with
    | Some c => column_equals (columns r) c (VStr v)
    | None => false
    end.
Proof. unfold equal_cond. simpl. rewrite read_clause_equal. reflexivity. Qed.

Lemma column_between_iff (cols : list (string * value)) (c : string)
    (lo hi : value) :
  column_between cols c lo hi = true <->
  exists kd lo' hi' x,
    lookup_col c table_columns = Some kd /\
    coerce kd lo = Some lo' /\ coerce kd hi = Some hi' /\
    lookup_col c cols = Some x /\
    sql_leb lo' x = true /\ sql_leb x hi' = true.
Proof.
  unfold column_between. split.
  - destruct (lookup_col c table_columns) as [kd|]; [|discriminate].
    destruct (lookup_col c cols) as [x|]; [|discriminate].
    destruct (coerce kd lo) as [lo'|] eqn:Elo; [|discriminate].
    destruct (coerce kd hi) as [hi'|] eqn:Ehi; [|discriminate].
    intros Hb. apply andb_true_iff in Hb as [Hlo Hhi].
    exists kd, lo', hi', x. repeat split; try reflexivity; assumption.
  - intros (kd & lo' & hi' & x & -> & -> & -> & -> & Hlo & Hhi).
    rewrite Hlo, Hhi. reflexivity.
Qed.

Lemma column_like_plain (cols : list (string * value)) (c v : string) :
  like_plain v = true ->
  column_like cols c (VStr ("%" +:+ v +:+ "%")) = true <->
  exists txt, lookup_col c cols = Some (VStr txt) /\ contains txt v.
Proof.
  intros Hv. unfold column_like.
  destruct (lookup_col c cols) as [[n|txt|t]|].
  - split; [discriminate|]. intros (txt & Hx & _). discriminate.
  - rewrite (like_match_wrapped v txt Hv). split.
    + intros Hc. exists txt. split; [reflexivity | exact Hc].
    + intros (txt' & [= <-] & Hc). exact Hc.
  - split; [discriminate|]. intros (txt & Hx & _). discriminate.
  - split; [discriminate|]. intros (txt & Hx & _). discriminate.
Qed.

End MemFacts.

Lemma Ret_inj {A : Type} (a b : A) : Ret a = Ret b -> a = b.
Proof. intros [= ->]. reflexivity. Qed.

(** * Errors *)

Lemma error_eqb_refl (e : error) : error_eqb e e = true.
Proof.
  induction e as [msg|p e IH]; simpl.
  - apply String.eqb_refl.
  - rewrite String.eqb_refl, IH. reflexivity.
Qed.

Lemma errors_Is_refl (e : error) : errors_Is e e = true.
Proof. destruct e; simpl; rewrite ?String.eqb_refl, ?error_eqb_refl; reflexivity. Qed.

Lemma errors_Is_wrap_cause (p : string) (e : error) :
  errors_Is (Errorf_w p e) e = true.
Proof. simpl. rewrite errors_Is_refl. apply orb_true_r. Qed.

Lemma errors_Is_wrap_NotFound (p : string) (e : error) :
  errors_Is (Errorf_w p e) ErrRecordNotFound = errors_Is e ErrRecordNotFound.
Proof. reflexivity. Qed.

Lemma no_sentinel_wrap (p : string) (e : error) :
  no_sentinel e -> no_sentinel (Errorf_w p e).
Proof. intros [Hn Hm]. split; simpl; assumption. Qed.

(** A sentinel in the outcome of a resolution was put there by the
    resolution, when the find reports none itself. *)
Lemma resolve_sentinel_from_success {T : Type}
    (found : list (ptr T) * option error) (e : error) :
  (forall e0, snd found = Some e0 -> no_sentinel e0) ->
  snd (resolve_singleton found) = Some e ->
  ~ no_sentinel e ->
  snd found = None.
Proof.
  destruct found as [res [e0|]]; [|reflexivity].
  intros Hclean Hres Hbad. exfalso. apply Hbad.
  pose proof (Hclean e0 eq_refl) as Hn.
  unfold resolve_singleton in Hres. cbn [fst snd] in Hres.
  destruct Hn as [Hnf Hm]. rewrite Hnf in Hres. injection Hres as <-.
  apply no_sentinel_wrap. split; assumption.
Qed.

(** * The sort direction *)

(** C3: rendering covers exactly the two declared directions and panics on
    every other value, the zero value included. *)
Theorem OrderBy_String_total_on_variants :
  OrderBy_String ASC = Ret "ASC" /\
  OrderBy_String DESC = Ret "DESC" /\
  OrderBy_String 0%N = Panic "unknown OrderBy" /\
  (forall ob : OrderBy,
      ob <> ASC -> ob <> DESC -> OrderBy_String ob = Panic "unknown OrderBy") /\
  (forall ob : OrderBy,
      ob = ASC \/ ob = DESC -> exists s, OrderBy_String ob = Ret s) /\
  (forall (ob : OrderBy) (s : string),
      OrderBy_String ob = Ret s ->
      (ob = ASC /\ s = "ASC") \/ (ob = DESC /\ s = "DESC")).
Proof.
  repeat split; try reflexivity.
  - intros ob Ha Hd. unfold OrderBy_String.
    destruct (N.eqb_spec ob ASC) as [E|_]; [contradiction|].
    destruct (N.eqb_spec ob DESC) as [E|_]; [contradiction|].
    reflexivity.
  - intros ob [->| ->]; eexists; reflexivity.
  - intros ob s. unfold OrderBy_String.
    destruct (N.eqb_spec ob ASC) as [E|_].
    + intros [= <-]. left; split; [exact E | reflexivity].
    + destruct (N.eqb_spec ob DESC) as [E|_].
      * intros [= <-]. right; split; [exact E | reflexivity].
      * discriminate.
Qed.

Lemma OrderBy_String_total_on_variants_witness :
  OrderBy_String 3%N = Panic "unknown OrderBy" /\
  (exists s, OrderBy_String 2%N = Ret s).
Proof.
  destruct OrderBy_String_total_on_variants as (_ & _ & _ & Hp & Hr & _).
  split.
  - apply (Hp 3%N); discriminate.
  - apply (Hr 2%N). right. reflexivity.
Defined.

(** * Singleton resolution *)

(** C1: when the underlying find succeeds, each of QueryOne, QueryMapOne and
    SmartQueryOne returns NotFound for no match, the record for exactly one
    match and MultipleResults for two or more, never the first of several;
    MultipleResults is a value distinct from NotFound. *)
Theorem singleton_resolution_three_way :
  forall (T : Type) (visit : RangeOrder) (g : GenericCRUD T) (v : T)
         (m : gmap string value) (q : Query_t) (omit' : list string)
         (s : Stmt T) (res : list (ptr T)),
    (db_Find (db g) (Query_stmt g v omit') = (res, None) ->
     three_way res (QueryOne g v omit')) /\
    (db_Find (db g) (QueryMap_stmt m omit') = (res, None) ->
     three_way res (QueryMapOne g m omit')) /\
    (SmartQuery_stmt visit q = Ret s -> db_Find (db g) s = (res, None) ->
     exists r, SmartQueryOne visit g q = Ret r /\ three_way res r) /\
    MultipleResultsError <> ErrRecordNotFound /\
    errors_Is MultipleResultsError ErrRecordNotFound = false /\
    errors_Is ErrRecordNotFound MultipleResultsError = false.
Proof.
  intros T visit g v m q omit' s res.
  split; [|split; [|split; [|split; [|split]]]]; try reflexivity.
  - intros Hfind. rewrite QueryOne_resolve, Hfind. apply resolve_three_way.
  - intros Hfind. rewrite QueryMapOne_resolve. unfold QueryMap.
    rewrite Hfind. apply resolve_three_way.
  - intros Hstmt Hfind. rewrite SmartQueryOne_resolve. unfold SmartQuery.
    rewrite Hstmt. simpl. rewrite Hfind.
    eexists. split; [reflexivity | apply resolve_three_way].
  - discriminate.
Qed.

Lemma singleton_resolution_three_way_witness :
  QueryOne (New (mem_db users) []) (mkUser 0 0 0 "a" 0) []
    = (None, Some MultipleResultsError) /\
  QueryMapOne (New (mem_db users) []) {[ "id" := VInt 1 ]} []
    = (Some u1, None) /\
  (exists r,
      SmartQueryOne range_in_map_order (New (mem_db users) [])
        (mkQuery [] [] ∅ {[ "name" := "zzz" ]} ∅ ∅) = Ret r /\
      r = (None, Some ErrRecordNotFound)).
Proof.
  split; [|split].
  - destruct (singleton_resolution_three_way User range_in_map_order
                (New (mem_db users) []) (mkUser 0 0 0 "a" 0) ∅
                (mkQuery [] [] ∅ ∅ ∅ ∅) [] session [Some u1; Some u2])
      as ((_ & _ & Hmany) & _).
    + reflexivity.
    + apply Hmany. simpl. lia.
  - destruct (singleton_resolution_three_way User range_in_map_order
                (New (mem_db users) []) u1 {[ "id" := VInt 1 ]}
                (mkQuery [] [] ∅ ∅ ∅ ∅) [] session [Some u1])
      as (_ & Hmap & _).
    destruct Hmap as (_ & Hone & _).
    + reflexivity.
    + apply Hone. reflexivity.
  - destruct (singleton_resolution_three_way User range_in_map_order
                (New (mem_db users) []) u1 ∅
                (mkQuery [] [] ∅ {[ "name" := "zzz" ]} ∅ ∅) []
                (mkStmt [] [] [] [CondExpr "name = ?" [VStr "zzz"]]) [])
      as (_ & _ & Hsmart & _).
    destruct Hsmart as (r & Hr & Hzero & _).
    + reflexivity.
    + reflexivity.
    + exists r. split; [exact Hr | apply Hzero; reflexivity].
Defined.

(** C10: a singleton call returns a nil record with every error and a
    non-nil record with a nil error, the find filling its slice with
    pointers to the records it scanned. *)
Theorem singleton_record_xor_error :
  forall (T : Type) (visit : RangeOrder) (g : GenericCRUD T) (v : T)
         (m : gmap string value) (q : Query_t) (omit' : list string),
    fills_non_nil (db g) ->
    record_xor_error (QueryOne g v omit') /\
    record_xor_error (QueryMapOne g m omit') /\
    (forall r, SmartQueryOne visit g q = Ret r -> record_xor_error r) /\
    (Forall (fun kv : string * OrderBy => valid_direction (snd kv))
            (visit _ (q_OrderBy q)) ->
     exists r, SmartQueryOne visit g q = Ret r).
Proof.
  intros T visit g v m q omit' Hfill. split; [|split; [|split]].
  - rewrite QueryOne_resolve. apply resolve_xor, Hfill.
  - rewrite QueryMapOne_resolve. apply resolve_xor, Hfill.
  - intros r. rewrite SmartQueryOne_resolve. unfold SmartQuery.
    destruct (SmartQuery_stmt visit q) as [s|msg]; simpl; [|discriminate].
    intros [= <-]. apply resolve_xor, Hfill.
  - intros Hvalid. rewrite SmartQueryOne_resolve. unfold SmartQuery.
    destruct (SmartQuery_stmt_returns (T:=T) visit q Hvalid) as [s ->].
    simpl. eexists; reflexivity.
Qed.

Lemma singleton_record_xor_error_witness :
  fills_non_nil (mem_db users) /\
  record_xor_error (QueryOne (New (mem_db users) []) (mkUser 0 0 0 "a" 0) []) /\
  record_xor_error
    (QueryMapOne (New (mem_db users) []) {[ "id" := VInt 1 ]} []).
Proof.
  split; [apply mem_find_non_nil|].
  destruct (singleton_record_xor_error User range_in_map_order
              (New (mem_db users) []) (mkUser 0 0 0 "a" 0)
              {[ "id" := VInt 1 ]} (mkQuery [] [] ∅ ∅ ∅ ∅) []
              (mem_find_non_nil users)) as (H1 & H2 & _).
  split; [exact H1 | exact H2].
Defined.

(** C9: QueryMapOne and SmartQueryOne are the singleton resolution applied
    to what QueryMap and SmartQuery return, so a -One call yields a record
    exactly when its list counterpart yields that one record. *)
Theorem one_variants_refine_list_variants :
  forall (T : Type) (visit : RangeOrder) (g : GenericCRUD T)
         (m : gmap string value) (q : Query_t) (omit' : list string),
    QueryMapOne g m omit' = resolve_singleton (QueryMap g m omit') /\
    SmartQueryOne visit g q = omap resolve_singleton (SmartQuery visit g q) /\
    (forall p, QueryMapOne g m omit' = (p, None) <->
               QueryMap g m omit' = ([p], None)) /\
    (forall p, SmartQueryOne visit g q = Ret (p, None) <->
               SmartQuery visit g q = Ret ([p], None)).
Proof.
  intros T visit g m q omit'. split; [|split; [|split]].
  - apply QueryMapOne_resolve.
  - apply SmartQueryOne_resolve.
  - intros p. rewrite QueryMapOne_resolve. apply resolve_agrees.
  - intros p. rewrite SmartQueryOne_resolve.
    destruct (SmartQuery visit g q) as [out|msg]; simpl.
    + split.
      * intros [= Hr]. apply resolve_agrees in Hr. rewrite Hr. reflexivity.
      * intros [= ->]. reflexivity.
    + split; discriminate.
Qed.

Lemma one_variants_refine_list_variants_witness :
  QueryMapOne (New (mem_db users) []) {[ "id" := VInt 2 ]} [] = (Some u2, None) /\
  SmartQueryOne range_in_map_order (New (mem_db users) [])
    (mkQuery [] [] ∅ {[ "name" := "a" ]} ∅ ∅)
  = Ret (None, Some MultipleResultsError).
Proof.
  destruct (one_variants_refine_list_variants User range_in_map_order
              (New (mem_db users) []) {[ "id" := VInt 2 ]}
              (mkQuery [] [] ∅ {[ "name" := "a" ]} ∅ ∅) [])
    as (Hmap & Hsmart & Hagree & _).
  split.
  - apply Hagree. reflexivity.
  - rewrite Hsmart. reflexivity.
Defined.

(** * Omitted attributes of a write *)

(** C2, as the code has it: every write omits the handle's list followed by
    the per-call list, so the per-call list adds to the handle's list and
    never replaces it.  With the constructor of src/crud/model.go the
    handle's list is OmitByDefault (CreatedAt, UpdatedAt) followed by the
    constructor's omits, so the timestamps stay omitted whatever the call
    adds; with the constructor of src/unnamed/part_000 it is the
    constructor's omits alone. *)
Theorem write_omits_handle_then_call :
  forall (T : Type) (d : DB T) (g : GenericCRUD T) (v : T)
         (ctor explicit : list string),
    (stmt_omit (Create_stmt g explicit) = omit g ++ explicit /\
     stmt_omit (GetOrCreate_stmt g v explicit) = omit g ++ explicit /\
     stmt_omit (Update_stmt g explicit) = omit g ++ explicit) /\
    Create g v explicit
      = (let (v', err) := db_Create (db g) (Create_stmt g explicit) v in
         (Some v', err)) /\
    GetOrCreate g v explicit
      = (let (v', err) :=
           db_FirstOrCreate (db g) (GetOrCreate_stmt g v explicit) v in
         (Some v', err)) /\
    Update g v explicit = db_Updates (db g) (Update_stmt g explicit) v /\
    omit (ModelGo.New d ctor) = ModelGo.OmitByDefault ++ ctor /\
    omit (New d ctor) = ctor /\
    (forall x : string,
        In x (stmt_omit (Update_stmt (ModelGo.New d ctor) explicit)) <->
        In x ["CreatedAt"; "UpdatedAt"] \/ In x ctor \/ In x explicit) /\
    (forall x : string,
        In x (stmt_omit (Update_stmt (New d ctor) explicit)) <->
        In x ctor \/ In x explicit).
Proof.
  intros T d g v ctor explicit.
  split; [|split; [|split; [|split; [|split; [|split; [|split]]]]]];
    try reflexivity.
  - repeat split.
  - intros x. simpl. rewrite !in_app_iff. simpl. tauto.
  - intros x. simpl. rewrite !in_app_iff. tauto.
Qed.

Lemma write_omits_defaults_replaced_counterexample :
  ~ (forall x : string,
        In x (stmt_omit (Update_stmt (New (mem_db users) []) ["name"])) <->
        In x ["CreatedAt"; "UpdatedAt"] \/ In x ["name"]) /\
  ~ (forall x : string,
        In x (stmt_omit (Update_stmt (ModelGo.New (mem_db users) ["age"])
                                     ["name"])) <->
        In x ["CreatedAt"; "UpdatedAt"] \/ In x ["name"]).
Proof.
  split; intros Hall.
  - assert (In "CreatedAt"
              (stmt_omit (Update_stmt (New (mem_db users) []) ["name"])))
      as Hin by (apply Hall; left; left; reflexivity).
    simpl in Hin. destruct Hin as [Hin|[]]. discriminate Hin.
  - assert (In "age" ["CreatedAt"; "UpdatedAt"] \/ In "age" ["name"]) as Hin
      by (apply Hall; simpl; tauto).
    simpl in Hin.
    destruct Hin as [[Hin|[Hin|[]]]|[Hin|[]]]; discriminate Hin.
Qed.

Lemma write_omits_handle_then_call_witness :
  stmt_omit (Update_stmt (ModelGo.New (mem_db users) []) ["name"])
    = ["CreatedAt"; "UpdatedAt"; "name"] /\
  In "UpdatedAt" (stmt_omit (Update_stmt (ModelGo.New (mem_db users) ["x"]) ["name"])).
Proof.
  destruct (write_omits_handle_then_call User (mem_db users)
              (ModelGo.New (mem_db users) []) u1 ["x"] ["name"])
    as ((_ & _ & HU) & _ & _ & _ & _ & _ & Hin & _).
  split.
  - rewrite HU. reflexivity.
  - apply Hin. left. right. left. reflexivity.
Defined.

(** * Filtering by example *)

Section ByExample.
Context {T : Type} `{Schema T} `{Table T} `{Dialect}.

Lemma struct_conds_In (v : T) (k : string) (x : value) :
  In (k, x) (struct_conds v) <-> In (k, x) (columns v) /\ is_zero x = false.
Proof.
  unfold struct_conds. rewrite filter_In. simpl.
  rewrite negb_true_iff. reflexivity.
Qed.

Lemma eval_CondStruct (v r : T) :
  eval_cond (CondStruct v) r = true <-> passes_example v r.
Proof.
  simpl. rewrite forallb_forall. unfold passes_example. split.
  - intros Hall k x Hin Hz.
    apply (Hall (k, x)). apply struct_conds_In. split; assumption.
  - intros Hall [k x] Hin. apply struct_conds_In in Hin as [Hin Hz].
    apply Hall; assumption.
Qed.




End ByExample.




(** * The structured query *)

Lemma visit_In (visit : RangeOrder) (V : Type) (m : gmap string V)
    (k : string) (x : V) :
  range_visits_each_once visit ->
  In (k, x) (visit V m) <-> m !! k = Some x.
Proof.
  intros Hfair. rewrite <- elem_of_map_to_list, <- list_elem_of_In.
  split; intros Hin.
  - rewrite <- (Hfair V m). exact Hin.
  - rewrite (Hfair V m). exact Hin.
Qed.


Lemma range_in_map_order_fair : range_visits_each_once range_in_map_order.
Proof. intros V m. reflexivity. Qed.


Section SmartFacts.
Context {T : Type}.

Lemma order_loop_ret_valid (kvs : list (string * OrderBy)) :
  forall s s' : Stmt T,
    order_loop kvs s = Ret s' ->
    Forall (fun kv : string * OrderBy => valid_direction (snd kv)) kvs.
Proof.
  induction kvs as [|[k ob] kvs IH]; intros s s' Hrun; [constructor|].
  simpl in Hrun.
  destruct (OrderBy_String ob) as [dir|msg] eqn:Hdir; simpl in Hrun;
    [|discriminate].
  constructor.
  - simpl. unfold OrderBy_String in Hdir.
    destruct (N.eqb_spec ob ASC) as [->|_]; [left; reflexivity|].
    destruct (N.eqb_spec ob DESC) as [->|_]; [right; reflexivity|].
    discriminate.
  - eapply IH. exact Hrun.
Qed.

Lemma SmartQuery_stmt_ret_valid (visit : RangeOrder) (q : Query_t) (s : Stmt T) :
  SmartQuery_stmt visit q = Ret s ->
  Forall (fun kv : string * OrderBy => valid_direction (snd kv))
         (visit _ (q_OrderBy q)).
Proof.
  unfold SmartQuery_stmt.
  destruct (order_loop _ _) as [s0|msg] eqn:Hord; simpl; [|discriminate].
  intros _. eapply order_loop_ret_valid. exact Hord.
Qed.



Lemma SmartQuery_stmt_panics (visit : RangeOrder) (q : Query_t) (msg : string) :
  SmartQuery_stmt (T:=T) visit q = Panic msg ->
  msg = "unknown OrderBy" /\
  exists kv, In kv (visit _ (q_OrderBy q)) /\ ~ valid_direction (snd kv).
Proof.
  unfold SmartQuery_stmt.
  destruct (order_loop _ _) as [s0|msg0] eqn:Hord; simpl; [discriminate|].
  intros [= <-]. eapply order_loop_panics. exact Hord.
Qed.

End SmartFacts.

Section ChainFacts.
Context {T : Type}.

Lemma order_loop_invalid_panics (kvs : list (string * OrderBy)) (s : Stmt T) :
  (exists kv, In kv kvs /\ ~ valid_direction (snd kv)) ->
  order_loop kvs s = Panic "unknown OrderBy".
Proof.
  intros (kv & Hin & Hbad).
  destruct (order_loop kvs s) as [s'|msg] eqn:Hrun.
  - exfalso. apply order_loop_ret_valid in Hrun.
    rewrite List.Forall_forall in Hrun. apply Hbad, Hrun, Hin.
  - apply order_loop_panics in Hrun as [-> _]. reflexivity.
Qed.

Lemma order_loop_texts (kvs : list (string * OrderBy)) :
  forall s s' : Stmt T,
    order_loop kvs s = Ret s' ->
    exists texts, stmt_order s' = stmt_order s ++ texts /\
                  Forall2 renders kvs texts.
Proof.
  induction kvs as [|[k ob] kvs IH]; intros s s'; simpl.
  - intros [= <-]. exists []. rewrite app_nil_r. split; [reflexivity|constructor].
  - unfold OrderBy_String at 1.
    destruct (N.eqb_spec ob ASC) as [->|Ha]; cbn [obind].
    + intros Hrun. apply IH in Hrun as (texts & Ho & Hall).
      exists ((k +:+ " ASC") :: texts). split.
      * rewrite Ho. simpl. rewrite <- app_assoc. reflexivity.
      * constructor; [left; split; reflexivity | exact Hall].
    + destruct (N.eqb_spec ob DESC) as [->|Hd]; cbn [obind]; [|discriminate].
      intros Hrun. apply IH in Hrun as (texts & Ho & Hall).
      exists ((k +:+ " DESC") :: texts). split.
      * rewrite Ho. simpl. rewrite <- app_assoc. reflexivity.
      * constructor; [right; split; reflexivity | exact Hall].
Qed.

Lemma fold_Where_frame {A : Type} (f : A -> Cond T) (l : list A) :
  forall s,
    let s' := fold_left (fun s a => Where (f a) s) l s in
    stmt_omit s' = stmt_omit s /\ stmt_preload s' = stmt_preload s /\
    stmt_order s' = stmt_order s.
Proof.
  induction l as [|a l IH]; intros s; simpl; [repeat split|].
  destruct (IH (Where (f a) s)) as (Ho & Hp & Hr).
  simpl in Ho, Hp, Hr. repeat split; assumption.
Qed.

Lemma preload_loop_frame (l : list string) : forall s : Stmt T,
  stmt_preload (preload_loop l s) = stmt_preload s ++ l /\
  stmt_omit (preload_loop l s) = stmt_omit s /\
  stmt_order (preload_loop l s) = stmt_order s.
Proof.
  unfold preload_loop.
  induction l as [|a l IH]; intros s; simpl.
  - rewrite app_nil_r. repeat split.
  - destruct (IH (Preload a s)) as (Hp & Ho & Hr). simpl in Hp, Ho, Hr.
    rewrite Hp, Ho, Hr, <- app_assoc. repeat split.
Qed.

End ChainFacts.

Section FrameFacts.
Context {T : Type}.

Lemma order_loop_order (kvs : list (string * OrderBy)) :
  forall s s' : Stmt T,
    order_loop kvs s = Ret s' ->
    stmt_order s' = stmt_order s ++ map order_text kvs.
Proof.
  induction kvs as [|[k ob] kvs IH]; intros s s'; simpl.
  - intros [= <-]. rewrite app_nil_r. reflexivity.
  - unfold OrderBy_String at 1, order_text at 1. cbn [fst snd].
    destruct (N.eqb_spec ob ASC) as [->|Ha]; cbn [obind].
    + intros Hrun. rewrite (IH _ _ Hrun). simpl. rewrite <- app_assoc.
      reflexivity.
    + destruct (N.eqb_spec ob DESC) as [->|Hd]; cbn [obind]; [|discriminate].
      intros Hrun. rewrite (IH _ _ Hrun). simpl. rewrite <- app_assoc.
      reflexivity.
Qed.

(** What the chain of SmartQuery carries beside its conditions. *)
Lemma SmartQuery_stmt_frame (visit : RangeOrder) (q : Query_t) (s : Stmt T) :
  SmartQuery_stmt visit q = Ret s ->
  stmt_omit s = q_Omit q /\ stmt_preload s = q_Preload q /\
  stmt_order s = map order_text (visit _ (q_OrderBy q)).
Proof.
  unfold SmartQuery_stmt.
  destruct (order_loop _ _) as [s0|msg] eqn:Hord; cbn [obind]; [|discriminate].
  intros [= <-].
  destruct (order_loop_frame _ _ _ Hord) as (_ & Ho0 & Hp0).
  pose proof (order_loop_order _ _ _ Hord) as Hr0.
  destruct (preload_loop_frame (q_Preload q) (Omit (q_Omit q) (@session T)))
    as (Hp1 & Ho1 & Hr1).
  rewrite Ho1 in Ho0. rewrite Hp1 in Hp0. rewrite Hr1 in Hr0.
  simpl in Ho0, Hp0, Hr0.
  unfold equal_loop, between_loop, like_loop.
  destruct (fold_Where_frame
              (fun kv : string * string => equal_cond (T:=T) (fst kv) (snd kv))
              (visit _ (q_Equal q))
              (fold_left (fun s kv => Where (between_cond (fst kv) (snd kv)) s)
                 (visit _ (q_Between q))
                 (fold_left (fun s kv => Where (like_cond (fst kv) (snd kv)) s)
                    (visit _ (q_Like q)) s0))) as (HoE & HpE & HrE).
  destruct (fold_Where_frame
              (fun kv : string * Between => between_cond (T:=T) (fst kv) (snd kv))
              (visit _ (q_Between q))
              (fold_left (fun s kv => Where (like_cond (fst kv) (snd kv)) s)
                 (visit _ (q_Like q)) s0)) as (HoB & HpB & HrB).
  destruct (fold_Where_frame
              (fun kv : string * string => like_cond (T:=T) (fst kv) (snd kv))
              (visit _ (q_Like q)) s0) as (HoL & HpL & HrL).
  cbv zeta in HoE, HpE, HrE, HoB, HpB, HrB, HoL, HpL, HrL.
  rewrite HoE, HoB, HoL, Ho0, HpE, HpB, HpL, Hp0, HrE, HrB, HrL, Hr0.
  repeat split.
Qed.

End FrameFacts.

Section ClauseFacts.
Context {T : Type} `{Schema T} `{Table T} `{Dialect}.

(** A record passes every condition of the chain exactly when it passes
    the condition of every clause of the query. *)
Lemma SmartQuery_stmt_conjunction (visit : RangeOrder) (q : Query_t)
    (s : Stmt T) (r : T) :
  range_visits_each_once visit ->
  SmartQuery_stmt visit q = Ret s ->
  (forall c, In c (stmt_where s) -> eval_cond c r = true) <->
  passes_query q r.
Proof.
  intros Hfair Hs. rewrite (SmartQuery_stmt_where visit q s Hs).
  unfold passes_query. split.
  - intros Hall. split; [|split].
    + intros k v Hk. apply Hall.
      apply in_or_app. left. apply in_map_iff. exists (k, v).
      split; [reflexivity | apply visit_In; assumption].
    + intros k b Hk. apply Hall.
      apply in_or_app. right. apply in_or_app. left.
      apply in_map_iff. exists (k, b).
      split; [reflexivity | apply visit_In; assumption].
    + intros k v Hk. apply Hall.
      apply in_or_app. right. apply in_or_app. right.
      apply in_map_iff. exists (k, v).
      split; [reflexivity | apply visit_In; assumption].
  - intros (HL & HB & HE) c Hc.
    apply in_app_or in Hc as [Hc|Hc]; [|apply in_app_or in Hc as [Hc|Hc]];
      apply in_map_iff in Hc as ([k x] & <- & Hin); cbn [fst snd];
      apply visit_In in Hin; try assumption.
    + apply HL. exact Hin.
    + apply HB. exact Hin.
    + apply HE. exact Hin.
Qed.

Lemma SmartQuery_mem_In (visit : RangeOrder) (rows : list T) (o : list string)
    (q : Query_t) (res : list (ptr T)) (p : ptr T) :
  range_visits_each_once visit ->
  SmartQuery visit (New (mem_db rows) o) q = Ret (res, None) ->
  In p res <->
  exists r, p = Some (project (q_Omit q) r) /\ In r rows /\
            live r = true /\ passes_query q r.
Proof.
  intros Hfair. unfold SmartQuery.
  destruct (SmartQuery_stmt visit q) as [s|msg] eqn:Hs; cbn [obind];
    [|discriminate].
  change (db (New (mem_db rows) o)) with (mem_db rows).
  intros Hrun. apply Ret_inj in Hrun.
  rewrite (mem_find_In rows s res p Hrun).
  destruct (SmartQuery_stmt_frame visit q s Hs) as (-> & _ & _).
  split; intros (r & Hp & Hin & Hl & Hall); exists r;
    (split; [exact Hp|]; split; [exact Hin|]; split; [exact Hl|]);
    apply (SmartQuery_stmt_conjunction visit q s r Hfair Hs); exact Hall.
Qed.

Lemma passes_without_between (q : Query_t) (k : string) (b : Between) (r : T) :
  q_Between q !! k = Some b ->
  passes_query q r <->
  passes_query (without_between k q) r /\
  eval_cond (between_cond k b) r = true.
Proof.
  intros Hk. unfold passes_query, without_between. simpl. split.
  - intros (HL & HB & HE). split; [|apply HB; exact Hk].
    split; [exact HL|]. split; [|exact HE].
    intros k' b' Hk'. apply lookup_delete_Some in Hk' as [_ Hk']. apply HB, Hk'.
  - intros [(HL & HB & HE) Hb]. split; [exact HL|]. split; [|exact HE].
    intros k' b' Hk'. destruct (decide (k = k')) as [<-|Hne].
    + rewrite Hk in Hk'. injection Hk' as <-. exact Hb.
    + apply HB. rewrite lookup_delete_ne; assumption.
Qed.

Lemma passes_without_like (q : Query_t) (k v : string) (r : T) :
  q_Like q !! k = Some v ->
  passes_query q r <->
  passes_query (without_like k q) r /\
  eval_cond (like_cond k v) r = true.
Proof.
  intros Hk. unfold passes_query, without_like. simpl. split.
  - intros (HL & HB & HE). split; [|apply HL; exact Hk].
    split; [|split; [exact HB | exact HE]].
    intros k' v' Hk'. apply lookup_delete_Some in Hk' as [_ Hk']. apply HL, Hk'.
  - intros [(HL & HB & HE) Hv]. split; [|split; [exact HB | exact HE]].
    intros k' v' Hk'. destruct (decide (k = k')) as [<-|Hne].
    + rewrite Hk in Hk'. injection Hk' as <-. exact Hv.
    + apply HL. rewrite lookup_delete_ne; assumption.
Qed.


End ClauseFacts.



(** C6, as the code has it: a range clause on [k] becomes the condition
    k BETWEEN From AND To, which holds of a record when From <= value <= To
    at the column [k] names, both ends included and both bounds read as the
    column takes them; with From <= To a record whose value is From or To
    passes the clause, and when the find succeeds it is returned whenever it
    is stored, not soft-deleted, and passes the other clauses of the
    query. *)
Theorem between_clause_inclusive :
  forall (T : Type) `{Schema T} `{Table T} `{Dialect} (visit : RangeOrder)
         (rows : list T) (o : list string) (q : Query_t) (k : string)
         (b : Between) (s : Stmt T) (r : T),
    range_visits_each_once visit ->
    q_Between q !! k = Some b ->
    SmartQuery_stmt visit q = Ret s ->
    In (CondExpr (k +:+ " BETWEEN ? AND ?") [From b; To b]) (stmt_where s) /\
    (eval_cond (between_cond k b) r = true <->
     exists c kd lo hi x,
       plain_column k = Some c /\
       lookup_col c table_columns = Some kd /\
       coerce kd (From b) = Some lo /\ coerce kd (To b) = Some hi /\
       lookup_col c (columns r) = Some x /\
       sql_leb lo x = true /\ sql_leb x hi = true) /\
    (forall c kd lo hi,
        plain_column k = Some c ->
        lookup_col c table_columns = Some kd ->
        coerce kd (From b) = Some lo -> coerce kd (To b) = Some hi ->
        sql_leb lo hi = true ->
        lookup_col c (columns r) = Some lo \/
        lookup_col c (columns r) = Some hi ->
        eval_cond (between_cond k b) r = true /\
        forall res,
          SmartQuery visit (New (mem_db rows) o) q = Ret (res, None) ->
          In r rows -> live r = true ->
          passes_query (without_between k q) r ->
          In (Some (project (q_Omit q) r)) res).
Proof.
  intros T HS HT HD visit rows o q k b s r Hfair Hk Hs.
  assert (eval_cond (between_cond k b) r = true <->
          exists c kd lo hi x,
            plain_column k = Some c /\
            lookup_col c table_columns = Some kd /\
            coerce kd (From b) = Some lo /\ coerce kd (To b) = Some hi /\
            lookup_col c (columns r) = Some x /\
            sql_leb lo x = true /\ sql_leb x hi = true) as Hsem.
  { rewrite eval_between_cond. destruct (plain_column k) as [c|].
    - rewrite column_between_iff. split.
      + intros (kd & lo & hi & x & Hr). exists c, kd, lo, hi, x.
        split; [reflexivity | exact Hr].
      + intros (c' & kd & lo & hi & x & [= <-] & Hr).
        exists kd, lo, hi, x. exact Hr.
    - split; [discriminate|]. intros (c' & kd & lo & hi & x & Hc & _).
      discriminate Hc. }
  split; [|split; [exact Hsem|]].
  - rewrite (SmartQuery_stmt_where visit q s Hs).
    apply in_or_app. right. apply in_or_app. left.
    apply in_map_iff. exists (k, b).
    split; [reflexivity | apply visit_In; assumption].
  - intros c kd lo hi Hc Hkd Hlo Hhi Hle Hend.
    assert (eval_cond (between_cond k b) r = true) as Hpass.
    { apply Hsem. destruct Hend as [Hx|Hx].
      - exists c, kd, lo, hi, lo. repeat split; try assumption.
        apply sql_leb_refl.
      - exists c, kd, lo, hi, hi. repeat split; try assumption.
        apply sql_leb_refl. }
    split; [exact Hpass|].
    intros res Hrun Hin Hlive Hothers.
    apply (SmartQuery_mem_In visit rows o q res _ Hfair Hrun).
    exists r. split; [reflexivity|]. split; [exact Hin|].
    split; [exact Hlive|].
    apply (passes_without_between q k b r Hk). split; assumption.
Qed.

Lemma between_clause_inclusive_witness :
  eval_cond (between_cond "age" (mkBetween (VInt 11) (VInt 12))) u2 = true /\
  In (Some u2)
     (fst (db_Find (mem_db users)
             (mkStmt [] [] []
                [CondExpr "age BETWEEN ? AND ?" [VInt 11; VInt 12]]))).
Proof.
  destruct (between_clause_inclusive User range_in_map_order users []
              q_age_11_to_12 "age" (mkBetween (VInt 11) (VInt 12))
              (mkStmt [] [] []
                 [CondExpr "age BETWEEN ? AND ?" [VInt 11; VInt 12]])
              u2 range_in_map_order_fair eq_refl eq_refl)
    as (_ & _ & Hend).
  destruct (Hend "age" KInt (VInt 11) (VInt 12) eq_refl eq_refl eq_refl
              eq_refl eq_refl (or_intror eq_refl)) as (Hpass & Hres).
  split; [exact Hpass|].
  apply (Hres _ eq_refl).
  - right. left. reflexivity.
  - reflexivity.
  - repeat split; intros k x Hk; vm_compute in Hk; discriminate Hk.
Defined.

Lemma between_endpoint_excluded_counterexample :
  (q_Between q_age_12_to_11 !! "age" = Some (mkBetween (VInt 12) (VInt 11)) /\
   In u2 users /\
   lookup_col "age" (columns u2) = Some (VInt 12) /\
   SmartQuery range_in_map_order (New (mem_db users) []) q_age_12_to_11
     = Ret ([], None)) /\
  (q_Between q_age_11_to_12_name_zzz !! "age"
     = Some (mkBetween (VInt 11) (VInt 12)) /\
   In u1 users /\
   lookup_col "age" (columns u1) = Some (VInt 11) /\
   SmartQuery range_in_map_order (New (mem_db users) []) q_age_11_to_12_name_zzz
     = Ret ([], None)).
Proof.
  repeat split; try reflexivity.
  - right. left. reflexivity.
  - left. reflexivity.
Qed.

(** C7, as the code has it: a substring clause on [k] becomes the condition
    k LIKE ? bound to the value between two percent signs, the value taken
    as it is; when the value has none of the characters LIKE treats
    specially (percent, underscore, backslash) the condition holds exactly
    of the records whose text at the column [k] names contains the value as
    a contiguous substring, compared case-sensitively, and when the find
    succeeds the records returned are the stored records, not soft-deleted,
    of which it holds and which pass the other clauses of the query. *)
Theorem like_clause_wraps_value :
  forall (T : Type) `{Schema T} `{Table T} `{Dialect} (visit : RangeOrder)
         (rows : list T) (o : list string) (q : Query_t) (k v : string)
         (s : Stmt T) (r : T),
    range_visits_each_once visit ->
    q_Like q !! k = Some v ->
    SmartQuery_stmt visit q = Ret s ->
    In (CondExpr (k +:+ " LIKE ?") [VStr ("%" +:+ v +:+ "%")]) (stmt_where s) /\
    (like_plain v = true ->
     (eval_cond (like_cond k v) r = true <->
      exists c txt, plain_column k = Some c /\
                    lookup_col c (columns r) = Some (VStr txt) /\
                    contains txt v) /\
     forall res,
       SmartQuery visit (New (mem_db rows) o) q = Ret (res, None) ->
       forall p,
         In p res <->
         exists r', p = Some (project (q_Omit q) r') /\ In r' rows /\
                    live r' = true /\
                    passes_query (without_like k q) r' /\
                    exists c txt, plain_column k = Some c /\
                                  lookup_col c (columns r') = Some (VStr txt) /\
                                  contains txt v).
Proof.
  intros T HS HT HD visit rows o q k v s r Hfair Hk Hs. split.
  - rewrite (SmartQuery_stmt_where visit q s Hs).
    apply in_or_app. left. apply in_map_iff. exists (k, v).
    split; [reflexivity | apply visit_In; assumption].
  - intros Hplain.
    assert (forall x : T,
               eval_cond (like_cond k v) x = true <->
               exists c txt, plain_column k = Some c /\
                             lookup_col c (columns x) = Some (VStr txt) /\
                             contains txt v) as Hsem.
    { intros x. rewrite eval_like_cond. destruct (plain_column k) as [c|].
      - rewrite (column_like_plain (columns x) c v Hplain). split.
        + intros (txt & Hr). exists c, txt. split; [reflexivity | exact Hr].
        + intros (c' & txt & [= <-] & Hr). exists txt. exact Hr.
      - split; [discriminate|]. intros (c' & txt & Hc & _). discriminate Hc. }
    split; [apply Hsem|].
    intros res Hrun p.
    rewrite (SmartQuery_mem_In visit rows o q res p Hfair Hrun).
    split; intros (r' & Hp & Hin & Hl & Hpass); exists r';
      (split; [exact Hp|]; split; [exact Hin|]; split; [exact Hl|]).
    + apply (passes_without_like q k v r' Hk) in Hpass as [Hothers Hlike].
      split; [exact Hothers | apply Hsem, Hlike].
    + destruct Hpass as [Hothers Hlike].
      apply (passes_without_like q k v r' Hk).
      split; [exact Hothers | apply Hsem, Hlike].
Qed.

Lemma like_clause_wraps_value_witness :
  exists res,
    SmartQuery range_in_map_order (New (mem_db users) []) q_name_like_a
      = Ret (res, None) /\
    In (Some u1) res.
Proof.
  destruct (like_clause_wraps_value User range_in_map_order users []
              q_name_like_a "name" "a"
              (mkStmt [] [] ["id DESC"] [CondExpr "name LIKE ?" [VStr "%a%"]])
              u1 range_in_map_order_fair eq_refl eq_refl)
    as (_ & Hplain).
  destruct (Hplain eq_refl) as (_ & Hres).
  exists [Some u2; Some u1]. split; [reflexivity|].
  apply (Hres _ eq_refl). exists u1. split; [reflexivity|].
  split; [left; reflexivity|]. split; [reflexivity|]. split.
  - repeat split; intros k x Hk; vm_compute in Hk; discriminate Hk.
  - exists "name", "a". split; [reflexivity|]. split; [reflexivity|].
    exists EmptyString, EmptyString. reflexivity.
Defined.

Lemma like_wildcard_value_counterexample :
  q_Like q_name_like_underscore !! "name" = Some "_" /\
  SmartQuery range_in_map_order (New (mem_db users) []) q_name_like_underscore
    = Ret ([Some u1; Some u2], None) /\
  lookup_col "name" (columns u1) = Some (VStr "a") /\
  ~ contains "a" "_".
Proof.
  repeat split.
  intros (pre & post & Heq).
  destruct pre as [|c pre]; [discriminate Heq|].
  destruct pre as [|c' pre]; discriminate Heq.
Qed.

(** * Reads over the in-memory table *)

Section TableReads.
Context {T : Type} `{Schema T} `{Table T} `{Dialect}.

Lemma filter_singleton_unique (f : T -> bool) (l : list T) (r : T) :
  List.filter f l = [r] ->
  In r l /\ f r = true /\ forall r', In r' l -> f r' = true -> r' = r.
Proof.
  intros Hf.
  assert (forall x, In x l /\ f x = true <-> x = r) as Hiff.
  { intros x. rewrite <- filter_In, Hf. simpl. split.
    - intros [<-|[]]. reflexivity.
    - intros ->. left. reflexivity. }
  destruct (proj2 (Hiff r) eq_refl) as [Hin Hr].
  split; [exact Hin|]. split; [exact Hr|].
  intros r' Hin' Hr'. apply Hiff. split; assumption.
Qed.

(** The one record a resolution returns is the one stored record, not
    soft-deleted, that passes every condition of the chain. *)
Lemma mem_resolve_record (rows : list T) (s : Stmt T) (p : T) :
  resolve_singleton (db_Find (mem_db rows) s) = (Some p, None) ->
  exists r, p = project (stmt_omit s) r /\ In r rows /\ live r = true /\
            matches s r = true /\
            forall r', In r' rows -> live r' = true -> matches s r' = true ->
                       r' = r.
Proof.
  intros Hres. apply resolve_agrees in Hres.
  apply mem_find_success in Hres as (Hmap & _).
  unfold selected in Hmap.
  destruct (sort_rows (stmt_order s)
              (List.filter (fun r => live r && matches s r) rows))
    as [|r [|r' l]] eqn:Hsort; try discriminate Hmap.
  injection Hmap as Hp.
  pose proof (sort_rows_Permutation (stmt_order s)
                (List.filter (fun r => live r && matches s r) rows)) as Hperm.
  rewrite Hsort in Hperm. apply Permutation_length_1_inv in Hperm.
  apply filter_singleton_unique in Hperm as (Hin & Hr & Huniq).
  apply andb_true_iff in Hr as [Hl Hm].
  exists r. split; [exact Hp|]. split; [exact Hin|]. split; [exact Hl|].
  split; [exact Hm|].
  intros x Hx Hlx Hmx. apply Huniq; [exact Hx|].
  rewrite Hlx, Hmx. reflexivity.
Qed.

Lemma mem_resolve_not_found (rows : list T) (s : Stmt T) :
  resolve_singleton (db_Find (mem_db rows) s) = (None, Some ErrRecordNotFound)
  <-> snd (db_Find (mem_db rows) s) = None /\
      forall r, In r rows -> live r = true -> matches s r = false.
Proof.
  split.
  - intros Hres.
    destruct (db_Find (mem_db rows) s) as [res [e|]] eqn:Hfind.
    + exfalso. pose proof (mem_find_no_sentinel rows s e) as Hclean.
      rewrite Hfind in Hclean. destruct (Hclean eq_refl) as [Hn _].
      unfold resolve_singleton in Hres. cbn [fst snd] in Hres.
      rewrite Hn in Hres. discriminate Hres.
    + split; [reflexivity|].
      apply mem_find_success in Hfind as (-> & _).
      assert (selected s rows = []) as Hsel.
      { unfold resolve_singleton in Hres. cbn [fst snd] in Hres.
        destruct (selected s rows) as [|x [|y l]];
          [reflexivity | discriminate Hres | discriminate Hres]. }
      intros r Hin Hl. destruct (matches s r) eqn:Hm; [|reflexivity].
      exfalso.
      assert (In (project (stmt_omit s) r) (selected s rows)) as Hsome.
      { apply selected_In. exists r. split; [reflexivity|].
        split; [exact Hin|]. split; [exact Hl|].
        unfold matches in Hm. rewrite forallb_forall in Hm. exact Hm. }
      rewrite Hsel in Hsome. destruct Hsome.
  - intros [Herr Hnone]. rewrite mem_find_spec in Herr |- *.
    cbn [snd] in Herr.
    destruct (table_find_success rows s Herr) as (_ & _ & _ & ->).
    rewrite Herr. unfold selected.
    rewrite (filter_none (fun r => live r && matches s r) rows).
    + reflexivity.
    + intros r Hin. destruct (live r) eqn:Hl; [|reflexivity].
      rewrite (Hnone r Hin Hl). reflexivity.
Qed.

Lemma matches_example (g : GenericCRUD T) (v : T) (omit' : list string) (r : T) :
  matches (Query_stmt g v omit') r = true <-> passes_example v r.
Proof.
  unfold matches.
  change (stmt_where (Query_stmt g v omit')) with [@CondStruct T v].
  cbn [forallb]. rewrite andb_true_r. apply eval_CondStruct.
Qed.

Lemma matches_smart (visit : RangeOrder) (q : Query_t) (s : Stmt T) (r : T) :
  range_visits_each_once visit ->
  SmartQuery_stmt visit q = Ret s ->
  matches s r = true <-> passes_query q r.
Proof.
  intros Hfair Hs.
  rewrite <- (SmartQuery_stmt_conjunction visit q s r Hfair Hs).
  unfold matches. rewrite forallb_forall. reflexivity.
Qed.

(** A successful find over a table none of whose visible records passes the
    conditions returns the empty slice. *)
Lemma mem_find_none (rows : list T) (s : Stmt T) :
  snd (db_Find (mem_db rows) s) = None ->
  (forall r, In r rows -> live r = true -> matches s r = false) ->
  db_Find (mem_db rows) s = ([], None).
Proof.
  intros Herr Hnone.
  pose proof (proj2 (mem_resolve_not_found rows s) (conj Herr Hnone)) as Hres.
  destruct (db_Find (mem_db rows) s) as [res err] eqn:Hfind.
  cbn [snd] in Herr. subst err.
  unfold resolve_singleton in Hres. cbn [fst snd] in Hres.
  destruct res as [|x [|y l]]; [reflexivity | |]; discriminate Hres.
Qed.

End TableReads.

(** * List-returning reads *)

(** C8: over a find that reports only its own failures, Query, QueryMap and
    SmartQuery never report NotFound nor MultipleResults; when the find
    returns no record they return an empty slice with a nil error, where the
    singleton call on the same input returns NotFound; whenever a singleton
    call reports one of the two, the find had succeeded and the list call on
    the same input returns a nil error; and over a table, a Query or
    SmartQuery whose find does not fail and whose filter no stored record
    passes returns the empty slice with a nil error. *)
Theorem list_reads_empty_is_success :
  forall (T : Type) `{Schema T} `{Table T} `{Dialect} (visit : RangeOrder)
         (g : GenericCRUD T) (v : T) (m : gmap string value) (q : Query_t)
         (omit' : list string) (s : Stmt T) (rows : list T) (o : list string),
    find_reports_no_sentinel (db g) ->
    (forall e, snd (Query g v omit') = Some e -> no_sentinel e) /\
    (forall e, snd (QueryMap g m omit') = Some e -> no_sentinel e) /\
    (forall out e, SmartQuery visit g q = Ret out -> snd out = Some e ->
                   no_sentinel e) /\
    (db_Find (db g) (Query_stmt g v omit') = ([], None) ->
     Query g v omit' = ([], None) /\
     QueryOne g v omit' = (None, Some ErrRecordNotFound)) /\
    (db_Find (db g) (QueryMap_stmt m omit') = ([], None) ->
     QueryMap g m omit' = ([], None) /\
     QueryMapOne g m omit' = (None, Some ErrRecordNotFound)) /\
    (SmartQuery_stmt visit q = Ret s -> db_Find (db g) s = ([], None) ->
     SmartQuery visit g q = Ret ([], None) /\
     SmartQueryOne visit g q = Ret (None, Some ErrRecordNotFound)) /\
    (forall e, snd (QueryOne g v omit') = Some e -> ~ no_sentinel e ->
               snd (Query g v omit') = None) /\
    (forall e, snd (QueryMapOne g m omit') = Some e -> ~ no_sentinel e ->
               snd (QueryMap g m omit') = None) /\
    (forall r e, SmartQueryOne visit g q = Ret r -> snd r = Some e ->
                 ~ no_sentinel e ->
                 exists out, SmartQuery visit g q = Ret out /\ snd out = None) /\
    ((forall r, In r rows -> live r = true -> ~ passes_example v r) ->
     snd (Query (New (mem_db rows) o) v omit') = None ->
     Query (New (mem_db rows) o) v omit' = ([], None)) /\
    (range_visits_each_once visit ->
     (forall r, In r rows -> live r = true -> ~ passes_query q r) ->
     forall out, SmartQuery visit (New (mem_db rows) o) q = Ret out ->
                 snd out = None -> out = ([], None)).
Proof.
  intros T HS HT HD visit g v m q omit' s rows o Hclean.
  split; [|split; [|split; [|split; [|split; [|split; [|split; [|split;
    [|split; [|split]]]]]]]]].
  - intros e He. apply (Hclean _ e He).
  - intros e He. apply (Hclean _ e He).
  - intros out e. unfold SmartQuery.
    destruct (SmartQuery_stmt visit q) as [s0|msg]; cbn [obind];
      [|discriminate].
    intros Hout He. apply Ret_inj in Hout. subst out. apply (Hclean _ e He).
  - intros Hfind. split; [exact Hfind|].
    rewrite QueryOne_resolve, Hfind. reflexivity.
  - intros Hfind. split; [exact Hfind|].
    rewrite QueryMapOne_resolve. unfold QueryMap. rewrite Hfind. reflexivity.
  - intros Hs Hfind.
    assert (SmartQuery visit g q = Ret ([], None)) as HSQ
        by (unfold SmartQuery; rewrite Hs; cbn [obind]; rewrite Hfind;
            reflexivity).
    split; [exact HSQ|]. rewrite SmartQueryOne_resolve, HSQ. reflexivity.
  - intros e. rewrite QueryOne_resolve.
    apply resolve_sentinel_from_success. apply Hclean.
  - intros e. rewrite QueryMapOne_resolve.
    apply resolve_sentinel_from_success. apply Hclean.
  - intros r e. rewrite SmartQueryOne_resolve. unfold SmartQuery.
    destruct (SmartQuery_stmt visit q) as [s0|msg]; cbn [obind omap];
      [|discriminate].
    intros Hr He Hbad. apply Ret_inj in Hr. subst r.
    eexists. split; [reflexivity|].
    apply (resolve_sentinel_from_success _ e (Hclean s0) He Hbad).
  - unfold Query. change (db (New (mem_db rows) o)) with (mem_db rows).
    intros Hnone Herr. apply mem_find_none; [exact Herr|].
    intros r Hin Hl.
    destruct (matches (Query_stmt (New (mem_db rows) o) v omit') r) eqn:Hm;
      [|reflexivity].
    exfalso. apply (Hnone r Hin Hl).
    apply (matches_example (New (mem_db rows) o) v omit'), Hm.
  - intros Hfair Hnone out. unfold SmartQuery.
    destruct (SmartQuery_stmt visit q) as [s0|msg] eqn:Hs0; cbn [obind];
      [|discriminate].
    change (db (New (mem_db rows) o)) with (mem_db rows).
    intros Hout Herr. apply Ret_inj in Hout. subst out.
    apply mem_find_none; [exact Herr|].
    intros r Hin Hl. destruct (matches s0 r) eqn:Hm; [|reflexivity].
    exfalso. apply (Hnone r Hin Hl).
    apply (matches_smart visit q s0 r Hfair Hs0), Hm.
Qed.

Lemma list_reads_empty_is_success_witness :
  find_reports_no_sentinel (mem_db users) /\
  Query (New (mem_db users) []) (mkUser 0 0 0 "zzz" 0) [] = ([], None) /\
  QueryOne (New (mem_db users) []) (mkUser 0 0 0 "zzz" 0) []
    = (None, Some ErrRecordNotFound) /\
  snd (Query (New (mem_db users) []) (mkUser 0 0 0 "a" 0) []) = None.
Proof.
  split; [apply mem_find_no_sentinel|].
  destruct (list_reads_empty_is_success User range_in_map_order
              (New (mem_db users) []) (mkUser 0 0 0 "zzz" 0) ∅
              (mkQuery [] [] ∅ ∅ ∅ ∅) [] session users []
              (mem_find_no_sentinel users))
    as (_ & _ & _ & Hnone & _).
  destruct (list_reads_empty_is_success User range_in_map_order
              (New (mem_db users) []) (mkUser 0 0 0 "a" 0) ∅
              (mkQuery [] [] ∅ ∅ ∅ ∅) [] session users []
              (mem_find_no_sentinel users))
    as (_ & _ & _ & _ & _ & _ & Hmade & _).
  destruct Hnone as [HQ HO]; [reflexivity|].
  split; [exact HQ|]. split; [exact HO|].
  apply (Hmade MultipleResultsError); [reflexivity|].
  intros [_ Hm]. discriminate Hm.
Defined.

(** * Further properties of the reads *)

Section ResolveFacts.
Context {T : Type}.

Lemma resolve_on_error (res : list (ptr T)) (e : error) :
  resolve_singleton (res, Some e)
  = (None, Some (if errors_Is e ErrRecordNotFound then e
                 else Errorf_w "db error: " e)).
Proof. reflexivity. Qed.

Lemma resolve_characterised (found : list (ptr T) * option error) :
  outcome_matches_find found (resolve_singleton found).
Proof.
  destruct found as [res [e0|]]; unfold outcome_matches_find, resolve_singleton;
    cbn [fst snd].
  - destruct (errors_Is e0 ErrRecordNotFound) eqn:His;
      (split; [|split; [|split]]).
    + split; [discriminate|]. intros (p & Hp). discriminate Hp.
    + split.
      * intros [= ->]. discriminate His.
      * intros (r & Hr & _). discriminate Hr.
    + intros e. split.
      * intros [[= <-] He]. right. exists res. split; [reflexivity | exact He].
      * intros [[Hf _]|(r & [= _ <-] & He)]; [discriminate Hf|].
        split; [reflexivity | exact He].
    + intros e. split.
      * intros [[= ->] Hn]. rewrite errors_Is_wrap_NotFound in His. congruence.
      * intros (r & [= _ <-] & Hn). congruence.
    + split; [discriminate|]. intros (p & Hp). discriminate Hp.
    + split; [discriminate|]. intros (r & Hr & _). discriminate Hr.
    + intros e. split.
      * intros [[= <-] He]. rewrite errors_Is_wrap_NotFound in He. congruence.
      * intros [[Hf _]|(r & [= _ <-] & He)]; [discriminate Hf | congruence].
    + intros e. split.
      * intros [[= <-] Hn]. exists res. split; [reflexivity | exact Hn].
      * intros (r & [= _ <-] & Hn). split; [reflexivity | exact Hn].
  - destruct res as [|p [|p' res]]; (split; [|split; [|split]]).
    + split; [discriminate|]. intros (p & Hp). discriminate Hp.
    + split; [discriminate|]. intros (r & [= <-] & Hlen). simpl in Hlen. lia.
    + intros e. split.
      * intros [[= <-] _]. left. split; reflexivity.
      * intros [[_ ->]|(r & Hf & _)]; [split; reflexivity | discriminate Hf].
    + intros e. split.
      * intros [He _]. discriminate He.
      * intros (r & Hf & _). discriminate Hf.
    + split; [|reflexivity]. intros _. exists p. reflexivity.
    + split; [discriminate|]. intros (r & [= <-] & Hlen). simpl in Hlen. lia.
    + intros e. split.
      * intros [He _]. discriminate He.
      * intros [[Hf _]|(r & Hf & _)]; discriminate Hf.
    + intros e. split.
      * intros [He _]. discriminate He.
      * intros (r & Hf & _). discriminate Hf.
    + split; [discriminate|]. intros (p0 & Hp). discriminate Hp.
    + split; [|reflexivity]. intros _. eexists. split; [reflexivity|].
      simpl. lia.
    + intros e. split.
      * intros [[= <-] Hn]. discriminate Hn.
      * intros [[Hf _]|(r & Hf & _)]; discriminate Hf.
    + intros e. split.
      * intros [He _]. discriminate He.
      * intros (r & Hf & _). discriminate Hf.
Qed.

Lemma resolve_Permutation (res res' : list (ptr T)) (err : option error) :
  Permutation res res' ->
  resolve_singleton (res, err) = resolve_singleton (res', err).
Proof.
  intros Hp. destruct err as [e|]; [reflexivity|].
  unfold resolve_singleton; cbn [fst snd].
  destruct res as [|p [|p' res]].
  - apply Permutation_nil in Hp as ->. reflexivity.
  - apply Permutation_length_1_inv in Hp as ->. reflexivity.
  - pose proof (Permutation_length Hp) as Hlen.
    destruct res' as [|q [|q' res']]; simpl in Hlen; try lia. reflexivity.
Qed.

End ResolveFacts.

(** X1: QueryOne, which builds its own chain, resolves exactly what Query
    returns for the same example and omits: it yields a record with a nil
    error when, and only when, Query yields that one record. *)
Theorem QueryOne_refines_Query :
  forall (T : Type) (g : GenericCRUD T) (v : T) (omit' : list string),
    QueryOne g v omit' = resolve_singleton (Query g v omit') /\
    (forall p, QueryOne g v omit' = (p, None) <->
               Query g v omit' = ([p], None)) /\
    (Query g v omit' = ([], None) ->
     QueryOne g v omit' = (None, Some ErrRecordNotFound)) /\
    (forall res, Query g v omit' = (res, None) -> (2 <= length res)%nat ->
                 QueryOne g v omit' = (None, Some MultipleResultsError)).
Proof.
  intros T g v omit'. split; [|split; [|split]].
  - apply QueryOne_resolve.
  - intros p. rewrite QueryOne_resolve. apply resolve_agrees.
  - intros HQ. rewrite QueryOne_resolve. unfold Query in HQ. rewrite HQ.
    reflexivity.
  - intros res HQ Hlen. rewrite QueryOne_resolve. unfold Query in HQ.
    rewrite HQ. apply resolve_three_way. exact Hlen.
Qed.

Lemma QueryOne_refines_Query_witness :
  QueryOne (New (mem_db users) []) (mkUser 0 0 0 "a" 0) []
    = (None, Some MultipleResultsError) /\
  QueryOne (New (mem_db users) []) (mkUser 2 0 0 EmptyString 0) []
    = (Some u2, None).
Proof.
  destruct (QueryOne_refines_Query User (New (mem_db users) [])
              (mkUser 0 0 0 "a" 0) []) as (_ & _ & _ & Hmany).
  destruct (QueryOne_refines_Query User (New (mem_db users) [])
              (mkUser 2 0 0 EmptyString 0) []) as (_ & Hone & _).
  split.
  - apply (Hmany [Some u1; Some u2]); [reflexivity | simpl; lia].
  - apply Hone. reflexivity.
Defined.

(** X2: when the find fails, every singleton call returns a nil record,
    whatever the find had scanned, and an error that still is (errors.Is)
    the find's error: that error itself when it is NotFound, and otherwise
    wrapped after "db error: ", which never reads as NotFound. *)
Theorem singleton_find_error_kept :
  forall (T : Type) (visit : RangeOrder) (g : GenericCRUD T) (v : T)
         (m : gmap string value) (q : Query_t) (omit' : list string)
         (s : Stmt T) (res : list (ptr T)) (e : error),
    let e' := if errors_Is e ErrRecordNotFound then e
              else Errorf_w "db error: " e in
    (errors_Is e' e = true /\
     errors_Is e' ErrRecordNotFound = errors_Is e ErrRecordNotFound) /\
    (db_Find (db g) (Query_stmt g v omit') = (res, Some e) ->
     QueryOne g v omit' = (None, Some e')) /\
    (db_Find (db g) (QueryMap_stmt m omit') = (res, Some e) ->
     QueryMapOne g m omit' = (None, Some e')) /\
    (SmartQuery_stmt visit q = Ret s -> db_Find (db g) s = (res, Some e) ->
     SmartQueryOne visit g q = Ret (None, Some e')).
Proof.
  intros T visit g v m q omit' s res e e'. split; [|split; [|split]].
  - unfold e'. destruct (errors_Is e ErrRecordNotFound) eqn:His.
    + split; [apply errors_Is_refl | exact His].
    + split; [apply errors_Is_wrap_cause|].
      rewrite errors_Is_wrap_NotFound. exact His.
  - intros Hf. rewrite QueryOne_resolve, Hf. apply resolve_on_error.
  - intros Hf. rewrite QueryMapOne_resolve. unfold QueryMap. rewrite Hf.
    apply resolve_on_error.
  - intros Hs Hf. rewrite SmartQueryOne_resolve. unfold SmartQuery.
    rewrite Hs. cbn [obind omap]. rewrite Hf, resolve_on_error. reflexivity.
Qed.

Lemma singleton_find_error_kept_witness :
  QueryOne (New (failing_db [Some u1] (errors_New "connection refused")) [])
           u1 []
    = (None, Some (Errorf_w "db error: " (errors_New "connection refused"))) /\
  QueryMapOne
    (New (failing_db [Some u1] (Errorf_w "take: " ErrRecordNotFound)) [])
    ∅ []
    = (None, Some (Errorf_w "take: " ErrRecordNotFound)).
Proof.
  split.
  - destruct (singleton_find_error_kept User range_in_map_order
                (New (failing_db [Some u1] (errors_New "connection refused")) [])
                u1 ∅ (mkQuery [] [] ∅ ∅ ∅ ∅) [] session [Some u1]
                (errors_New "connection refused")) as (_ & HQ & _).
    apply HQ. reflexivity.
  - destruct (singleton_find_error_kept User range_in_map_order
                (New (failing_db [Some u1] (Errorf_w "take: " ErrRecordNotFound)) [])
                u1 ∅ (mkQuery [] [] ∅ ∅ ∅ ∅) [] session [Some u1]
                (Errorf_w "take: " ErrRecordNotFound)) as (_ & _ & HM & _).
    apply HM. reflexivity.
Defined.

(** X3: the error of a singleton call tells what the find produced: nil
    exactly for one record found, MultipleResultsError exactly for a
    successful find of two or more, an error that is NotFound exactly for a
    successful find of none (the sentinel itself) or a find failing with
    that very error, and the "db error: " wrapping of an error other than
    NotFound exactly for a find failing with that very error. *)
Theorem singleton_outcome_characterised :
  forall (T : Type) (visit : RangeOrder) (g : GenericCRUD T) (v : T)
         (m : gmap string value) (q : Query_t) (omit' : list string)
         (s : Stmt T),
    outcome_matches_find (db_Find (db g) (Query_stmt g v omit'))
                         (QueryOne g v omit') /\
    outcome_matches_find (db_Find (db g) (QueryMap_stmt m omit'))
                         (QueryMapOne g m omit') /\
    (SmartQuery_stmt visit q = Ret s ->
     exists r, SmartQueryOne visit g q = Ret r /\
               outcome_matches_find (db_Find (db g) s) r).
Proof.
  intros T visit g v m q omit' s. split; [|split].
  - rewrite QueryOne_resolve. apply resolve_characterised.
  - rewrite QueryMapOne_resolve. apply resolve_characterised.
  - intros Hs. rewrite SmartQueryOne_resolve. unfold SmartQuery.
    rewrite Hs. cbn [obind omap]. eexists. split; [reflexivity|].
    apply resolve_characterised.
Qed.

Lemma singleton_outcome_characterised_witness :
  exists res,
    db_Find (mem_db users) (Query_stmt (New (mem_db users) [])
                                       (mkUser 0 0 0 "a" 0) [])
      = (res, None) /\ (2 <= length res)%nat.
Proof.
  destruct (singleton_outcome_characterised User range_in_map_order
              (New (mem_db users) []) (mkUser 0 0 0 "a" 0) ∅
              (mkQuery [] [] ∅ ∅ ∅ ∅) [] session) as ((_ & Hmany & _) & _).
  apply Hmany. reflexivity.
Defined.

Lemma mem_db_same_rows_found {T : Type} `{Schema T} `{Table T} `{Dialect}
    (rows rows' : list T) :
  Permutation rows rows' -> same_rows_found (mem_db rows) (mem_db rows').
Proof.
  intros Hp s. rewrite !mem_find_spec. cbn [fst snd]. unfold table_find.
  destruct (first_error check_cond (stmt_where s)); [split; reflexivity|].
  destruct (first_error check_order (stmt_order s)); [split; reflexivity|].
  cbn [fst snd]. split; [|reflexivity].
  apply Permutation_map, selected_Permutation; [exact Hp | | ]; reflexivity.
Qed.

(** X4: a singleton call does not depend on the order in which the find
    returns its records: two handles with the same omits whose finds return
    the same records in any order, with the same error, give the same
    result. *)
Theorem singleton_independent_of_row_order :
  forall (T : Type) (visit : RangeOrder) (g g' : GenericCRUD T) (v : T)
         (m : gmap string value) (q : Query_t) (omit' : list string),
    omit g = omit g' ->
    same_rows_found (db g) (db g') ->
    QueryOne g v omit' = QueryOne g' v omit' /\
    QueryMapOne g m omit' = QueryMapOne g' m omit' /\
    SmartQueryOne visit g q = SmartQueryOne visit g' q.
Proof.
  intros T visit g g' v m q omit' Homit Hsame.
  assert (forall s, resolve_singleton (db_Find (db g) s)
                    = resolve_singleton (db_Find (db g') s)) as Hres.
  { intros s. destruct (Hsame s) as [Hp He].
    destruct (db_Find (db g) s) as [res err].
    destruct (db_Find (db g') s) as [res' err'].
    cbn [fst snd] in Hp, He. subst err'. apply resolve_Permutation, Hp. }
  split; [|split].
  - rewrite !QueryOne_resolve. unfold Query_stmt. rewrite Homit. apply Hres.
  - rewrite !QueryMapOne_resolve. unfold QueryMap. apply Hres.
  - rewrite !SmartQueryOne_resolve. unfold SmartQuery.
    destruct (SmartQuery_stmt visit q) as [s|msg]; cbn [obind omap];
      [|reflexivity].
    rewrite Hres. reflexivity.
Qed.

Lemma singleton_independent_of_row_order_witness :
  same_rows_found (mem_db [u1; u2]) (mem_db [u2; u1]) /\
  QueryOne (New (mem_db [u1; u2]) []) (mkUser 0 0 0 EmptyString 12) []
  = QueryOne (New (mem_db [u2; u1]) []) (mkUser 0 0 0 EmptyString 12) [].
Proof.
  assert (same_rows_found (mem_db [u1; u2]) (mem_db [u2; u1])) as Hsame
      by (apply mem_db_same_rows_found; constructor).
  split; [exact Hsame|].
  apply (singleton_independent_of_row_order User range_in_map_order
           (New (mem_db [u1; u2]) []) (New (mem_db [u2; u1]) [])
           (mkUser 0 0 0 EmptyString 12) ∅ (mkQuery [] [] ∅ ∅ ∅ ∅) []
           eq_refl Hsame).
Defined.

(** * Further properties of the structured query *)

(** X5: SmartQuery and SmartQueryOne panic, with "unknown OrderBy", exactly
    when some ordering directive of the query carries a direction other than
    ASC and DESC, whatever the handle and the other clauses; otherwise they
    return. *)
Theorem SmartQuery_panics_iff_invalid_direction :
  forall (T : Type) (visit : RangeOrder) (g : GenericCRUD T) (q : Query_t),
    range_visits_each_once visit ->
    (forall msg,
        SmartQuery visit g q = Panic msg <->
        msg = "unknown OrderBy" /\
        exists k ob, q_OrderBy q !! k = Some ob /\ ~ valid_direction ob) /\
    ((exists out, SmartQuery visit g q = Ret out) <->
     forall k ob, q_OrderBy q !! k = Some ob -> valid_direction ob) /\
    (forall msg,
        SmartQueryOne visit g q = Panic msg <->
        SmartQuery visit g q = Panic msg).
Proof.
  intros T visit g q Hfair. split; [|split].
  - intros msg. unfold SmartQuery. split.
    + destruct (SmartQuery_stmt visit q) as [s|msg0] eqn:Hs; cbn [obind];
        [discriminate|].
      intros [= <-].
      apply SmartQuery_stmt_panics in Hs as (-> & [k ob] & Hin & Hbad).
      split; [reflexivity|]. exists k, ob.
      split; [apply (visit_In visit _ _ k ob Hfair); exact Hin | exact Hbad].
    + intros (-> & k & ob & Hk & Hbad).
      unfold SmartQuery_stmt.
      rewrite (order_loop_invalid_panics (visit _ (q_OrderBy q))).
      * reflexivity.
      * exists (k, ob). split; [apply visit_In; assumption | exact Hbad].
  - unfold SmartQuery. split.
    + intros (out & Hrun) k ob Hk.
      destruct (SmartQuery_stmt visit q) as [s|msg0] eqn:Hs; cbn [obind] in Hrun;
        [|discriminate].
      apply SmartQuery_stmt_ret_valid in Hs.
      rewrite List.Forall_forall in Hs.
      apply (Hs (k, ob)). apply visit_In; assumption.
    + intros Hall.
      destruct (SmartQuery_stmt_returns (T:=T) visit q) as [s Hs].
      * apply List.Forall_forall. intros [k ob] Hin. apply (Hall k ob).
        apply (visit_In visit _ _ k ob Hfair). exact Hin.
      * rewrite Hs. cbn [obind]. eexists. reflexivity.
  - intros msg. rewrite SmartQueryOne_resolve.
    destruct (SmartQuery visit g q) as [out|msg0]; cbn [obind omap].
    + split; discriminate.
    + split; intros [= ->]; reflexivity.
Qed.

Lemma SmartQuery_panics_iff_invalid_direction_witness :
  range_visits_each_once range_in_map_order /\
  SmartQuery range_in_map_order (New (mem_db users) []) q_order_by_zero
    = Panic "unknown OrderBy" /\
  (exists out,
      SmartQuery range_in_map_order (New (mem_db users) []) q_name_like_a
      = Ret out).
Proof.
  split; [apply range_in_map_order_fair|].
  destruct (SmartQuery_panics_iff_invalid_direction User range_in_map_order
              (New (mem_db users) []) q_order_by_zero
              range_in_map_order_fair) as (Hpanic & _).
  destruct (SmartQuery_panics_iff_invalid_direction User range_in_map_order
              (New (mem_db users) []) q_name_like_a
              range_in_map_order_fair) as (_ & Hret & _).
  split.
  - apply Hpanic. split; [reflexivity|].
    exists "id", 0%N. split; [reflexivity|].
    intros [E|E]; discriminate E.
  - apply Hret. intros k ob Hk.
    destruct (decide (k = "id")) as [->|Hne].
    + vm_compute in Hk. injection Hk as <-. right. reflexivity.
    + unfold q_name_like_a in Hk. cbn [q_OrderBy] in Hk.
      rewrite lookup_singleton_ne in Hk by congruence. discriminate Hk.
Defined.

Lemma renders_functional (kv : string * OrderBy) (t t' : string) :
  renders kv t -> renders kv t' -> t = t'.
Proof.
  intros [[Ha ->]|[Ha ->]] [[Hb ->]|[Hb ->]]; try reflexivity;
    rewrite Ha in Hb; discriminate Hb.
Qed.

Lemma Forall2_In_r {A B : Type} (R : A -> B -> Prop) (l : list A) (l' : list B)
    (y : B) :
  Forall2 R l l' -> In y l' -> exists x, In x l /\ R x y.
Proof.
  induction 1 as [|a b l l' Hab _ IH]; intros Hin; [destruct Hin|].
  destruct Hin as [<-|Hin].
  - exists a. split; [left; reflexivity | exact Hab].
  - destruct (IH Hin) as (x & Hx & Hr). exists x.
    split; [right; exact Hx | exact Hr].
Qed.

Lemma Forall2_In_l {A B : Type} (R : A -> B -> Prop) (l : list A) (l' : list B)
    (x : A) :
  Forall2 R l l' -> In x l -> exists y, In y l' /\ R x y.
Proof.
  induction 1 as [|a b l l' Hab _ IH]; intros Hin; [destruct Hin|].
  destruct Hin as [<-|Hin].
  - exists b. split; [left; reflexivity | exact Hab].
  - destruct (IH Hin) as (y & Hy & Hr). exists y.
    split; [right; exact Hy | exact Hr].
Qed.

Lemma visit_length (visit : RangeOrder) (V : Type) (m : gmap string V) :
  range_visits_each_once visit -> length (visit V m) = size m.
Proof.
  intros Hfair. rewrite (Permutation_length (Hfair V m)).
  apply length_map_to_list.
Qed.

(** X6: the chain SmartQuery executes carries one condition for every entry
    of the Like, Between and Equal maps, and no other condition: a clause on
    the same attribute in two maps gives two conditions, and nothing is added
    on behalf of the handle. *)
Theorem SmartQuery_conditions_exact :
  forall (T : Type) (visit : RangeOrder) (q : Query_t) (s : Stmt T),
    range_visits_each_once visit ->
    SmartQuery_stmt visit q = Ret s ->
    (forall c,
        In c (stmt_where s) <->
        (exists k v, q_Like q !! k = Some v /\
                     c = CondExpr (k +:+ " LIKE ?") [VStr ("%" +:+ v +:+ "%")]) \/
        (exists k b, q_Between q !! k = Some b /\
                     c = CondExpr (k +:+ " BETWEEN ? AND ?") [From b; To b]) \/
        (exists k v, q_Equal q !! k = Some v /\
                     c = CondExpr (k +:+ " = ?") [VStr v])) /\
    length (stmt_where s)
    = (size (q_Like q) + size (q_Between q) + size (q_Equal q))%nat.
Proof.
  intros T visit q s Hfair Hs.
  rewrite (SmartQuery_stmt_where visit q s Hs). split.
  - intros c. rewrite !in_app_iff, !in_map_iff. split.
    + intros [([k v] & <- & Hin)|[([k b] & <- & Hin)|([k v] & <- & Hin)]];
        apply visit_In in Hin; try assumption.
      * left. exists k, v. split; [exact Hin | reflexivity].
      * right. left. exists k, b. split; [exact Hin | reflexivity].
      * right. right. exists k, v. split; [exact Hin | reflexivity].
    + intros [(k & v & Hk & ->)|[(k & b & Hk & ->)|(k & v & Hk & ->)]].
      * left. exists (k, v). split; [reflexivity | apply visit_In; assumption].
      * right. left. exists (k, b).
        split; [reflexivity | apply visit_In; assumption].
      * right. right. exists (k, v).
        split; [reflexivity | apply visit_In; assumption].
  - rewrite !List.length_app, !List.length_map, !visit_length by assumption.
    lia.
Qed.

Lemma SmartQuery_conditions_exact_witness :
  length (stmt_where
            (mkStmt (T:=User) ["age"] ["Orders"; "Profile"] ["id DESC"]
               [CondExpr "name LIKE ?" [VStr "%a%"];
                CondExpr "age BETWEEN ? AND ?" [VInt 11; VInt 12];
                CondExpr "name = ?" [VStr "a"]]))
  = (size (q_Like q_full) + size (q_Between q_full) + size (q_Equal q_full))%nat.
Proof.
  apply (SmartQuery_conditions_exact User range_in_map_order q_full _
           range_in_map_order_fair).
  reflexivity.
Defined.

(** X7: the rest of the chain SmartQuery executes comes from the query
    alone: the omitted columns are q.Omit, the handle's omit list playing no
    part, the eager loads are q.Preload in its order, and there is one
    ordering text, "attribute ASC" or "attribute DESC", for every entry of
    the OrderBy map. *)
Theorem SmartQuery_chain_frame :
  forall (T : Type) (visit : RangeOrder) (q : Query_t) (s : Stmt T),
    range_visits_each_once visit ->
    SmartQuery_stmt visit q = Ret s ->
    stmt_omit s = q_Omit q /\
    stmt_preload s = q_Preload q /\
    Forall2 renders (visit _ (q_OrderBy q)) (stmt_order s) /\
    length (stmt_order s) = size (q_OrderBy q) /\
    (forall text,
        In text (stmt_order s) <->
        exists k ob, q_OrderBy q !! k = Some ob /\ renders (k, ob) text).
Proof.
  intros T visit q s Hfair. unfold SmartQuery_stmt.
  destruct (order_loop _ _) as [s0|msg] eqn:Hord; cbn [obind]; [|discriminate].
  intros [= <-].
  destruct (order_loop_frame _ _ _ Hord) as (_ & Ho0 & Hp0).
  destruct (order_loop_texts _ _ _ Hord) as (texts & Hr0 & Hall).
  destruct (preload_loop_frame (q_Preload q) (Omit (q_Omit q) (@session T)))
    as (Hp1 & Ho1 & Hr1).
  rewrite Ho1 in Ho0. rewrite Hp1 in Hp0. rewrite Hr1 in Hr0.
  simpl in Ho0, Hp0, Hr0.
  unfold equal_loop, between_loop, like_loop.
  destruct (fold_Where_frame
              (fun kv : string * string => equal_cond (T:=T) (fst kv) (snd kv))
              (visit _ (q_Equal q))
              (fold_left (fun s kv => Where (between_cond (fst kv) (snd kv)) s)
                 (visit _ (q_Between q))
                 (fold_left (fun s kv => Where (like_cond (fst kv) (snd kv)) s)
                    (visit _ (q_Like q)) s0))) as (HoE & HpE & HrE).
  destruct (fold_Where_frame
              (fun kv : string * Between => between_cond (T:=T) (fst kv) (snd kv))
              (visit _ (q_Between q))
              (fold_left (fun s kv => Where (like_cond (fst kv) (snd kv)) s)
                 (visit _ (q_Like q)) s0)) as (HoB & HpB & HrB).
  destruct (fold_Where_frame
              (fun kv : string * string => like_cond (T:=T) (fst kv) (snd kv))
              (visit _ (q_Like q)) s0) as (HoL & HpL & HrL).
  cbv zeta in HoE, HpE, HrE, HoB, HpB, HrB, HoL, HpL, HrL.
  rewrite HoE, HoB, HoL, Ho0, HpE, HpB, HpL, Hp0, HrE, HrB, HrL, Hr0.
  split; [reflexivity|]. split; [reflexivity|]. split; [exact Hall|]. split.
  - assert (length (visit _ (q_OrderBy q)) = length texts) as <-
        by (clear - Hall; induction Hall; simpl; congruence).
    apply visit_length. exact Hfair.
  - intros text. split.
    + intros Hin. destruct (Forall2_In_r _ _ _ _ Hall Hin) as ([k ob] & Hkv & Hr).
      exists k, ob. split; [|exact Hr].
      apply (visit_In visit _ _ k ob Hfair). exact Hkv.
    + intros (k & ob & Hk & Hr).
      apply (visit_In visit _ _ k ob Hfair) in Hk.
      destruct (Forall2_In_l _ _ _ _ Hall Hk) as (t' & Hin & Hr').
      rewrite (renders_functional _ _ _ Hr Hr'). exact Hin.
Qed.

Lemma SmartQuery_chain_frame_witness :
  stmt_omit
    (mkStmt (T:=User) ["age"] ["Orders"; "Profile"] ["id DESC"]
       [CondExpr "name LIKE ?" [VStr "%a%"];
        CondExpr "age BETWEEN ? AND ?" [VInt 11; VInt 12];
        CondExpr "name = ?" [VStr "a"]]) = q_Omit q_full.
Proof.
  apply (SmartQuery_chain_frame User range_in_map_order q_full _
           range_in_map_order_fair).
  reflexivity.
Defined.

(** * The first version of QueryOne *)

(** X9: the by-value QueryOne of the first version resolves the find in the
    same three ways, and hands back the zero value of the record type beside
    every error, the find's own errors included (wrapped after "db error: "
    unless NotFound). *)
Theorem part_one_QueryOne_three_way :
  forall (T : Type) `{PartOne.Zero T} (g : PartOne.GenericCRUD T) (v : T)
         (res : list T) (err : option error),
    PartOne.db_Find (PartOne.db g) (Where (CondStruct v) session) = (res, err) ->
    (err = None -> length res = 0%nat ->
     PartOne.QueryOne g v = (PartOne.zero, Some ErrRecordNotFound)) /\
    (forall r, err = None -> res = [r] -> PartOne.QueryOne g v = (r, None)) /\
    (err = None -> (2 <= length res)%nat ->
     PartOne.QueryOne g v = (PartOne.zero, Some MultipleResultsError)) /\
    (forall e, err = Some e ->
       PartOne.QueryOne g v
       = (PartOne.zero,
          Some (if errors_Is e ErrRecordNotFound then e
                else Errorf_w "db error: " e))) /\
    (snd (PartOne.QueryOne g v) <> None ->
     fst (PartOne.QueryOne g v) = PartOne.zero).
Proof.
  intros T HZ g v res err Hfind. unfold PartOne.QueryOne. rewrite Hfind.
  split; [|split; [|split; [|split]]].
  - intros -> Hlen. destruct res; [reflexivity | discriminate Hlen].
  - intros r -> ->. reflexivity.
  - intros -> Hlen. destruct res as [|r [|r' res]]; simpl in Hlen; try lia.
    reflexivity.
  - intros e ->. destruct (errors_Is e ErrRecordNotFound); reflexivity.
  - destruct err as [e|].
    + destruct (errors_Is e ErrRecordNotFound); reflexivity.
    + destruct res as [|r [|r' res]]; simpl; try reflexivity.
      intros Hne. exfalso. apply Hne. reflexivity.
Qed.

Lemma part_one_QueryOne_three_way_witness :
  PartOne.QueryOne (PartOne.New (PartOne.mem_db users)) (mkUser 0 0 0 "a" 0)
    = (mkUser 0 0 0 EmptyString 0, Some MultipleResultsError) /\
  PartOne.QueryOne (PartOne.New (PartOne.mem_db users))
                   (mkUser 0 0 0 EmptyString 12)
    = (u2, None).
Proof.
  assert (PartOne.db_Find (PartOne.db (PartOne.New (PartOne.mem_db users)))
            (Where (CondStruct (mkUser 0 0 0 "a" 0)) session)
          = ([u1; u2], None)) as Hboth by reflexivity.
  assert (PartOne.db_Find (PartOne.db (PartOne.New (PartOne.mem_db users)))
            (Where (CondStruct (mkUser 0 0 0 EmptyString 12)) session)
          = ([u2], None)) as Hsecond by reflexivity.
  destruct (part_one_QueryOne_three_way User
              (PartOne.New (PartOne.mem_db users)) (mkUser 0 0 0 "a" 0)
              [u1; u2] None Hboth) as (_ & _ & Hmany & _).
  destruct (part_one_QueryOne_three_way User
              (PartOne.New (PartOne.mem_db users))
              (mkUser 0 0 0 EmptyString 12)
              [u2] None Hsecond) as (_ & Hone & _).
  split.
  - apply Hmany; [reflexivity | simpl; lia].
  - apply Hone; reflexivity.
Defined.

(** X10: moving from records by value to records by pointer kept the
    outcomes of QueryOne: over connections that find the same records with
    the same error, the later QueryOne, on a handle without omits and
    called without omits, returns what the first version returns, with a
    pointer to the record on success and nil where the first version
    returned the zero value beside an error. *)
Theorem QueryOne_agrees_with_part_one :
  forall (T : Type) `{PartOne.Zero T} (d0 : PartOne.DB T) (d : DB T) (v : T),
    (forall s, db_Find d s
               = (map Some (fst (PartOne.db_Find d0 s)),
                  snd (PartOne.db_Find d0 s))) ->
    QueryOne (New d []) v [] = by_pointer (PartOne.QueryOne (PartOne.New d0) v) /\
    Query (New d []) v []
    = (map Some (fst (PartOne.Query (PartOne.New d0) v)),
       snd (PartOne.Query (PartOne.New d0) v)).
Proof.
  intros T HZ d0 d v Hsame. split.
  - unfold QueryOne, PartOne.QueryOne, by_pointer.
    change (db (New d [])) with d.
    change (PartOne.db (PartOne.New d0)) with d0.
    change (Query_stmt (New d []) v []) with (Where (CondStruct v) (@session T)).
    rewrite Hsame.
    destruct (PartOne.db_Find d0 (Where (CondStruct v) session)) as [res [e|]];
      cbn [fst snd].
    + destruct (errors_Is e ErrRecordNotFound); reflexivity.
    + destruct res as [|r [|r' res]]; reflexivity.
  - unfold Query, PartOne.Query.
    change (db (New d [])) with d.
    change (Query_stmt (New d []) v []) with (Where (CondStruct v) (@session T)).
    apply Hsame.
Qed.

Lemma QueryOne_agrees_with_part_one_witness :
  QueryOne (New (mem_db users) []) (mkUser 1 0 0 EmptyString 0) []
  = by_pointer (PartOne.QueryOne (PartOne.New (PartOne.mem_db users))
                                 (mkUser 1 0 0 EmptyString 0)).
Proof.
  apply (QueryOne_agrees_with_part_one User (PartOne.mem_db users)
           (mem_db users) (mkUser 1 0 0 EmptyString 0)).
  intros s. reflexivity.
Defined.

(** * Singleton calls over the in-memory table *)

(** X11: over a table, the record QueryOne or SmartQueryOne returns is a
    stored record, not soft-deleted, passing the filter, returned without
    the omitted columns, and it is the only such stored record; and the call
    reports the NotFound sentinel exactly when the find succeeds and no
    stored record that is not soft-deleted passes the filter: every non-zero
    attribute of the example for QueryOne, the condition of every Like,
    Between and Equal clause for SmartQueryOne. *)
Theorem singleton_returns_the_unique_match :
  forall (T : Type) `{Schema T} `{Table T} `{Dialect} (visit : RangeOrder)
         (rows : list T) (o omit' : list string) (v : T) (q : Query_t)
         (s : Stmt T) (p : T),
    range_visits_each_once visit ->
    SmartQuery_stmt visit q = Ret s ->
    (QueryOne (New (mem_db rows) o) v omit' = (Some p, None) ->
     exists r, p = project (o ++ omit') r /\ In r rows /\ live r = true /\
               passes_example v r /\
               forall r', In r' rows -> live r' = true ->
                          passes_example v r' -> r' = r) /\
    (SmartQueryOne visit (New (mem_db rows) o) q = Ret (Some p, None) ->
     exists r, p = project (q_Omit q) r /\ In r rows /\ live r = true /\
               passes_query q r /\
               forall r', In r' rows -> live r' = true ->
                          passes_query q r' -> r' = r) /\
    (QueryOne (New (mem_db rows) o) v omit' = (None, Some ErrRecordNotFound) <->
     snd (Query (New (mem_db rows) o) v omit') = None /\
     forall r', In r' rows -> live r' = true -> ~ passes_example v r') /\
    (SmartQueryOne visit (New (mem_db rows) o) q
       = Ret (None, Some ErrRecordNotFound) <->
     snd (db_Find (mem_db rows) s) = None /\
     forall r', In r' rows -> live r' = true -> ~ passes_query q r').
Proof.
  intros T HS HT HD visit rows o omit' v q s p Hfair Hs.
  assert (SmartQueryOne visit (New (mem_db rows) o) q
          = Ret (resolve_singleton (db_Find (mem_db rows) s))) as HSQ.
  { rewrite SmartQueryOne_resolve. unfold SmartQuery. rewrite Hs. reflexivity. }
  split; [|split; [|split]].
  - rewrite QueryOne_resolve.
    change (db (New (mem_db rows) o)) with (mem_db rows).
    intros Hres. apply mem_resolve_record in Hres
      as (r & Hp & Hin & Hl & Hm & Huniq).
    exists r. split; [exact Hp|]. split; [exact Hin|]. split; [exact Hl|].
    split; [apply (matches_example (New (mem_db rows) o) v omit'), Hm|].
    intros r' Hin' Hl' Hr'. apply Huniq; [exact Hin' | exact Hl' |].
    apply (matches_example (New (mem_db rows) o) v omit'). exact Hr'.
  - rewrite HSQ. intros Hres. apply Ret_inj in Hres.
    apply mem_resolve_record in Hres as (r & Hp & Hin & Hl & Hm & Huniq).
    destruct (SmartQuery_stmt_frame visit q s Hs) as (Ho & _ & _).
    rewrite Ho in Hp.
    exists r. split; [exact Hp|]. split; [exact Hin|]. split; [exact Hl|].
    split; [apply (matches_smart visit q s r Hfair Hs), Hm|].
    intros r' Hin' Hl' Hr'. apply Huniq; [exact Hin' | exact Hl' |].
    apply (matches_smart visit q s r' Hfair Hs). exact Hr'.
  - rewrite QueryOne_resolve. unfold Query.
    change (db (New (mem_db rows) o)) with (mem_db rows).
    rewrite mem_resolve_not_found. split; intros [Herr Hnone];
      (split; [exact Herr|]).
    + intros r' Hin' Hl' Hr'.
      apply (matches_example (New (mem_db rows) o) v omit') in Hr'.
      rewrite (Hnone r' Hin' Hl') in Hr'. discriminate Hr'.
    + intros r' Hin' Hl'.
      destruct (matches (Query_stmt (New (mem_db rows) o) v omit') r') eqn:Hm;
        [|reflexivity].
      exfalso. apply (Hnone r' Hin' Hl').
      apply (matches_example (New (mem_db rows) o) v omit'), Hm.
  - rewrite HSQ. split.
    + intros Hres. apply Ret_inj in Hres.
      destruct (proj1 (mem_resolve_not_found rows s) Hres) as [Herr Hnone].
      split; [exact Herr|].
      intros r' Hin' Hl' Hr'.
      apply (matches_smart visit q s r' Hfair Hs) in Hr'.
      rewrite (Hnone r' Hin' Hl') in Hr'. discriminate Hr'.
    + intros [Herr Hnone]. f_equal. apply mem_resolve_not_found.
      split; [exact Herr|]. intros r' Hin' Hl'.
      destruct (matches s r') eqn:Hm; [|reflexivity].
      exfalso. apply (Hnone r' Hin' Hl').
      apply (matches_smart visit q s r' Hfair Hs), Hm.
Qed.

Lemma singleton_returns_the_unique_match_witness :
  exists r,
    u1 = project [] r /\ In r (users ++ [u3_deleted]) /\
    forall r', In r' (users ++ [u3_deleted]) -> live r' = true ->
               passes_query q_id_equal_1 r' -> r' = r.
Proof.
  assert (SmartQuery_stmt (T:=User) range_in_map_order q_id_equal_1
          = Ret (mkStmt [] [] [] [CondExpr "id = ?" [VStr "1"]]))
    as Hs by (vm_compute; reflexivity).
  destruct (singleton_returns_the_unique_match User range_in_map_order
              (users ++ [u3_deleted]) [] [] u1 q_id_equal_1 _ u1
              range_in_map_order_fair Hs) as (_ & Hsmart & _).
  destruct Hsmart as (r & Hp & Hin & _ & _ & Huniq);
    [vm_compute; reflexivity|].
  exists r. split; [exact Hp|]. split; [exact Hin | exact Huniq].
Defined.

(** The table reads text given for a numeric column as the number, and a
    condition on something that is not a column fails the find, which the
    singleton call reports wrapped. *)
Lemma mem_db_reads_text_as_number :
  SmartQuery range_in_map_order (New (mem_db users) []) q_id_equal_1
  = Ret ([Some u1], None).
Proof. reflexivity. Qed.

Lemma mem_db_unknown_column_fails :
  SmartQuery range_in_map_order (New (mem_db users) []) q_unknown_column
  = Ret ([], Some (err_no_column "nickname")) /\
  SmartQueryOne range_in_map_order (New (mem_db users) []) q_unknown_column
  = Ret (None, Some (Errorf_w "db error: " (err_no_column "nickname"))).
Proof. split; reflexivity. Qed.
